(** * Fabric peer: connection table and message dispatch (lib/peer.js)

    A shallow embedding of [Peer] from [lib/peer.js]: the connection table,
    the data handlers installed on dialed and accepted sockets, the
    type-keyed dispatcher [_handleMessage], [broadcast], and the
    [start]/[listen]/[stop] lifecycle.

    JavaScript objects that are shared and mutated (sockets) live in a store
    and are named by references; the connection table maps address strings to
    references.  Every observable action of the code (log lines, emitted
    events, socket writes, destroys) is appended to a trace. *)

From Stdlib Require Import ZArith String Ascii List Bool Lia.
From Stdlib Require Import Floats.SpecFloat.
From stdpp Require Import base tactics option list.
Import ListNotations.

Set Warnings "-register-all".

Local Open Scope Z_scope.
Local Open Scope string_scope.
Local Open Scope list_scope.

(* ===================================================================== *)
(** ** JavaScript values *)
(* ===================================================================== *)

(** Numbers are IEEE 754 binary64 values, as in ECMAScript. *)
Definition Number := spec_float.

(** The values that cross the peer's interfaces: message payloads, parsed
    JSON, correlation ids, the state snapshot. *)
Inductive JSValue : Type :=
| VUndefined
| VNull
| VBool (b : bool)
| VNumber (n : Number)
| VString (s : string)
| VArray (items : list JSValue)
| VObject (props : list (string * JSValue)).

Definition is_empty_string (s : string) : bool :=
  match s with EmptyString => true | String _ _ => false end.

(** ECMAScript ToBoolean. *)
Definition truthy (v : JSValue) : bool :=
  match v with
  | VUndefined | VNull => false
  | VBool b => b
  | VNumber (S754_zero _) | VNumber S754_nan => false
  | VNumber _ => true
  | VString s => negb (is_empty_string s)
  | VArray _ | VObject _ => true
  end.

(** [typeof v !== 'string'] *)
Definition typeof_is_string (v : JSValue) : bool :=
  match v with VString _ => true | _ => false end.

(** A [Buffer] of raw bytes, as delivered by a socket's [data] event. *)
Definition Buffer := list ascii.

(** An [Error] object; only its message is kept. *)
Record Error := mkError { err_name : string; err_message : string }.

(* ===================================================================== *)
(** ** String.prototype.split and Array.prototype.join *)
(* ===================================================================== *)

(** [s.split(sep)] for a one-character separator.  The separators used by
    the peer are ASCII (':' and ' '), so splitting the UTF-8 bytes agrees
    with splitting the UTF-16 code units. *)
Fixpoint split_aux (sep : ascii) (s : string) (cur : string) : list string :=
  match s with
  | EmptyString => [cur]
  | String c rest =>
      if Ascii.eqb c sep then cur :: split_aux sep rest EmptyString
      else split_aux sep rest (cur ++ String c EmptyString)%string
  end.

Definition split (sep : ascii) (s : string) : list string :=
  split_aux sep s EmptyString.

(** [[a, b].join(':')]: [undefined] elements are rendered as the empty
    string. *)
Definition join2 (sep : string) (a b : option string) : string :=
  (default EmptyString a ++ sep ++ default EmptyString b)%string.
Arguments join2 : simpl never.

(* ===================================================================== *)
(** ** Plain objects used as tables *)
(* ===================================================================== *)

(** A plain object [{}] with string keys: own properties in insertion
    order.  Assigning to an existing key keeps its position. *)
Definition Table (V : Type) := list (string * V).

Fixpoint own {V} (t : Table V) (k : string) : option V :=
  match t with
  | [] => None
  | (k', v) :: rest => if String.eqb k' k then Some v else own rest k
  end.

Fixpoint assign {V} (t : Table V) (k : string) (v : V) : Table V :=
  match t with
  | [] => [(k, v)]
  | (k', v') :: rest =>
      if String.eqb k' k then (k, v) :: rest else (k', v') :: assign rest k v
  end.

(** [Object.keys(t)] *)
Definition Object_keys {V} (t : Table V) : list string := map fst t.

(** [keys.includes(k)] *)
Definition includes (keys : list string) (k : string) : bool :=
  existsb (String.eqb k) keys.

(** The property names every plain object inherits from
    [Object.prototype]; each of them is bound to a function or object, so a
    read through the prototype chain is truthy. *)
Definition Object_prototype_keys : list string :=
  [ "constructor"; "__defineGetter__"; "__defineSetter__"; "hasOwnProperty";
    "__lookupGetter__"; "__lookupSetter__"; "isPrototypeOf";
    "propertyIsEnumerable"; "toString"; "valueOf"; "__proto__";
    "toLocaleString" ].

(** [!t[k]] where the stored values are objects (always truthy): the
    negation of a property read through the prototype chain. *)
Definition not_get {V} (t : Table V) (k : string) : bool :=
  match own t k with
  | Some _ => false
  | None => negb (includes Object_prototype_keys k)
  end.

(* ===================================================================== *)
(** ** Messages *)
(* ===================================================================== *)

Definition P2P_IDENT_REQUEST : Z := 0x01.
Definition P2P_IDENT_RESPONSE : Z := 0x11.
Definition P2P_ROOT : Z := 0x00000000.
Definition P2P_PING : Z := 0x00000012.
Definition P2P_PONG : Z := 0x00000013.
Definition P2P_INSTRUCTION : Z := 0x00000020.
Definition P2P_STATE_COMMITTMENT : Z := 0x00000032.
Definition P2P_STATE_CHANGE : Z := 0x00000033.

(** Modelled from the spec: the [Message] class (lib/message.js) is not
    among the sources.  A decoded message exposes the three properties the
    peer reads: [type] (a numeric code), [id] (the correlation token) and
    [data] (the payload text). *)
Record Message := mkMessage {
  msg_type : Z;
  msg_id : JSValue;
  msg_data : string
}.

(** Modelled from the spec: a message built by
    [Message.fromVector([type, data])] is represented by the two-element
    vector it is built from. *)
Inductive OutMessage : Type :=
| Message_fromVector (type : Z) (data : JSValue).

Definition out_type (m : OutMessage) : Z :=
  match m with Message_fromVector t _ => t end.

Definition out_data (m : OutMessage) : JSValue :=
  match m with Message_fromVector _ d => d end.

(** The three ways [Message.fromRaw(data)] can end. *)
Inductive Decoded : Type :=
| DecodeOk (m : Message)
| DecodeFalsy
| DecodeThrows (e : Error).

(** What [_handleMessage] returns: [false], [null] or a message. *)
Inductive Response : Type :=
| RFalse
| RNull
| RMessage (m : OutMessage).

(* ===================================================================== *)
(** ** The peer, its sockets and the trace of observable actions *)
(* ===================================================================== *)

(** References into the socket store. *)
Abbreviation SocketRef := nat.

(** The listeners the peer installs on sockets.  Each closure is named by
    the place that creates it, with the variables it captures. *)
Inductive Listener : Type :=
| dialed_error (address : string)
| dialed_data
| dialed_connect (address : string)
| accepted_end (address : string)
| accepted_data.

(** The fields of a [net.Socket] that the peer reads or that its calls
    change. *)
Record Socket := mkSocket {
  connecting : bool;
  _hadError : bool;
  destroyed : bool;
  remoteAddress : option string;
  remotePort : option string;
  listeners : list Listener
}.

(** The arguments of a [log] or [debug] call.  A template literal is kept
    as the list of its pieces, the interpolated values unrendered. *)
Inductive LogArg : Type :=
| LStr (s : string)
| LVal (v : JSValue)
| LNum (z : Z)
| LMsg (m : OutMessage)
| LErr (e : Error)
| LTemplate (pieces : list LogArg).

(** The double-quote character, as a text. *)
Definition dq : string := String (ascii_of_nat 34) EmptyString.

Inductive Event : Type :=
| ev_ready
| ev_connection (address status : string) (initiator : bool)
| ev_peer (id : string)
| ev_part (address : string)
| ev_changes (changes : JSValue).

Inductive Effect : Type :=
| Log (args : list LogArg)
| Debug (args : list LogArg)
| Emit (e : Event)
| NewSocket (r : SocketRef)
| SocketOn (r : SocketRef) (l : Listener)
| SocketConnect (r : SocketRef) (port host : string)
| SocketWrite (r : SocketRef) (bytes : Buffer)
| SocketDestroy (r : SocketRef)
| CreateServer
| ServerListen (port : Z) (address : string)
| ServerClose.

Record Config := mkConfig {
  cfg_address : string;
  cfg_port : Z;
  cfg_debug : bool
}.

Record PeerRecord := mkPeerRecord { remote_id : string }.

Record Server := mkServer { server_open : bool }.

Record Peer := mkPeer {
  config : Config;
  peer_id : string;
  address : string;
  port : Z;
  server : option Server;
  connections : Table SocketRef;
  peers : Table PeerRecord;
  state : JSValue;
  clock : Z;
  stack : list JSValue;
  known : Table JSValue
}.

Record World := mkWorld {
  self : Peer;
  sockets : list Socket;
  trace : list Effect
}.

(** [new Peer(config)]: the defaults of the constructor, with the id
    (the hash of the public key) and the external state given. *)
Definition new_Peer (cfg : Config) (id : string) (st : JSValue) : Peer :=
  {| config := cfg; peer_id := id;
     address := cfg_address cfg; port := cfg_port cfg;
     server := None; connections := []; peers := [];
     state := st; clock := 0; stack := []; known := [] |}.

Definition default_config : Config :=
  {| cfg_address := "0.0.0.0"; cfg_port := 7777; cfg_debug := false |}.

Definition new_World (p : Peer) : World :=
  {| self := p; sockets := []; trace := [] |}.

(* ===================================================================== *)
(** ** A state and exception monad for method bodies *)
(* ===================================================================== *)

Inductive Outcome (A : Type) : Type :=
| Returned (a : A) (w : World)
| Thrown (e : Error) (w : World).
Arguments Returned {A} a w.
Arguments Thrown {A} e w.

Definition M (A : Type) : Type := World -> Outcome A.

#[global] Instance M_ret : MRet M := fun A a w => Returned a w.

#[global] Instance M_bind : MBind M := fun A B f c w =>
  match c w with
  | Returned a w' => f a w'
  | Thrown e w' => Thrown e w'
  end.

Definition throw {A} (e : Error) : M A := fun w => Thrown e w.

(** [try { body } catch (E) { handler(E) }] *)
Definition try_catch {A} (body : M A) (handler : Error -> M A) : M A :=
  fun w =>
    match body w with
    | Returned a w' => Returned a w'
    | Thrown e w' => handler e w'
    end.

Definition get_self : M Peer := fun w => Returned (self w) w.

Definition set_self (f : Peer -> Peer) : M unit :=
  fun w => Returned tt {| self := f (self w); sockets := sockets w; trace := trace w |}.

Definition effect (e : Effect) : M unit :=
  fun w => Returned tt {| self := self w; sockets := sockets w; trace := trace w ++ [e] |}.

Definition TypeError (msg : string) : Error :=
  {| err_name := "TypeError"; err_message := msg |}.

Definition RangeError (msg : string) : Error :=
  {| err_name := "RangeError"; err_message := msg |}.

(** The final world and the result, whichever way the call ended. *)
Definition world_of {A} (o : Outcome A) : World :=
  match o with Returned _ w => w | Thrown _ w => w end.

Definition threw {A} (o : Outcome A) : bool :=
  match o with Returned _ _ => false | Thrown _ _ => true end.

Definition result_of {A} (o : Outcome A) : option A :=
  match o with Returned a _ => Some a | Thrown _ _ => None end.

(* ===================================================================== *)
(** ** Primitive actions: logging, events, the socket store *)
(* ===================================================================== *)

(** [self.log(...)], [self.debug(...)] and [self.emit(...)] are inherited
    from [Vector] (lib/vector.js); here each call is recorded in the
    trace. *)
Definition log (args : list LogArg) : M unit := effect (Log args).
Definition debug (args : list LogArg) : M unit := effect (Debug args).
Definition emit (e : Event) : M unit := effect (Emit e).

Definition with_connections (t : Table SocketRef) (p : Peer) : Peer :=
  {| config := config p; peer_id := peer_id p; address := address p;
     port := port p; server := server p; connections := t;
     peers := peers p; state := state p; clock := clock p;
     stack := stack p; known := known p |}.

Definition with_peers (t : Table PeerRecord) (p : Peer) : Peer :=
  {| config := config p; peer_id := peer_id p; address := address p;
     port := port p; server := server p; connections := connections p;
     peers := t; state := state p; clock := clock p;
     stack := stack p; known := known p |}.

Definition with_server (s : option Server) (p : Peer) : Peer :=
  {| config := config p; peer_id := peer_id p; address := address p;
     port := port p; server := s; connections := connections p;
     peers := peers p; state := state p; clock := clock p;
     stack := stack p; known := known p |}.

Definition set_sockets (f : list Socket -> list Socket) : M unit :=
  fun w => Returned tt {| self := self w; sockets := f (sockets w); trace := trace w |}.

(** Reading a property of the socket object behind a reference. *)
Definition read_socket (r : SocketRef) : M Socket :=
  fun w =>
    match sockets w !! r with
    | Some s => Returned s w
    | None => Thrown (TypeError "Cannot read properties of undefined") w
    end.

Definition fresh_socket (ra rp : option string) : Socket :=
  {| connecting := false; _hadError := false; destroyed := false;
     remoteAddress := ra; remotePort := rp; listeners := [] |}.

(** [new net.Socket()] *)
Definition new_Socket : M SocketRef :=
  fun w =>
    let r := length (sockets w) in
    Returned r {| self := self w;
                  sockets := sockets w ++ [fresh_socket None None];
                  trace := trace w ++ [NewSocket r] |}.

Definition add_listener (l : Listener) (s : Socket) : Socket :=
  {| connecting := connecting s; _hadError := _hadError s;
     destroyed := destroyed s; remoteAddress := remoteAddress s;
     remotePort := remotePort s; listeners := listeners s ++ [l] |}.

Definition set_connecting (b : bool) (s : Socket) : Socket :=
  {| connecting := b; _hadError := _hadError s;
     destroyed := destroyed s; remoteAddress := remoteAddress s;
     remotePort := remotePort s; listeners := listeners s |}.

Definition set_hadError (b : bool) (s : Socket) : Socket :=
  {| connecting := connecting s; _hadError := b;
     destroyed := destroyed s; remoteAddress := remoteAddress s;
     remotePort := remotePort s; listeners := listeners s |}.

Definition set_destroyed (b : bool) (s : Socket) : Socket :=
  {| connecting := connecting s; _hadError := _hadError s;
     destroyed := b; remoteAddress := remoteAddress s;
     remotePort := remotePort s; listeners := listeners s |}.

(** [socket.on(event, listener)] *)
Definition socket_on (r : SocketRef) (l : Listener) : M unit :=
  set_sockets (alter (add_listener l) r) ;; effect (SocketOn r l).

(** [socket.write(bytes)] *)
Definition socket_write (r : SocketRef) (bytes : Buffer) : M unit :=
  effect (SocketWrite r bytes).

(** [socket.destroy()] *)
Definition socket_destroy (r : SocketRef) : M unit :=
  set_sockets (alter (set_destroyed true) r) ;; effect (SocketDestroy r).

(* ===================================================================== *)
(** ** The methods of [Peer] *)
(* ===================================================================== *)

(** What [_connect] returns: the value of [self.debug(...)], or the value
    read from [self.connections[address]]. *)
Inductive ConnectResult : Type :=
| ResultOfDebug
| Connection (r : SocketRef)
| NoConnection.

Definition connection_result (o : option SocketRef) : ConnectResult :=
  match o with Some r => Connection r | None => NoConnection end.

Section PeerMethods.

(** The collaborators that are not part of lib/peer.js. *)

(** [Message.fromRaw(data)], the Codec's decoder. *)
Variable fromRaw : Buffer -> Decoded.
(** [message.asRaw()], the Codec's encoder. *)
Variable asRaw : OutMessage -> Buffer.
(** [JSON.parse(text)]; [None] when it throws a SyntaxError. *)
Variable JSON_parse : string -> option JSValue.
(** [JSON.stringify(value)]: a string, or [undefined]. *)
Variable JSON_stringify : JSValue -> JSValue.
(** [Buffer.from(self.key._sign(text)).toString('hex')] *)
Variable sign_hex : string -> string.
(** The exception [socket.connect(port, host)] throws before it returns,
    if any (Node refuses a port text that is blank or that names a number
    outside 0..65535). *)
Variable connect_error : string -> string -> option Error.

(** [self.connections[address]] followed by a method call: a TypeError
    when the entry is missing. *)
Definition connection_at (address : string) : M SocketRef :=
  p ← get_self;
  match own (connections p) address with
  | Some r => mret r
  | None => throw (TypeError "Cannot read properties of undefined")
  end.

(** [socket.connect(port, host, callback)].  As in Node's lib/net.js the
    callback is registered and [connecting] is set before the arguments
    are checked. *)
Definition socket_connect (r : SocketRef) (port host : string)
    (callback : Listener) : M unit :=
  set_sockets (alter (fun s => set_connecting true (add_listener callback s)) r) ;;
  match connect_error port host with
  | None => effect (SocketConnect r port host)
  | Some E => throw E
  end.

(** lib/peer.js, lines 113-126. [data] is a [Buffer], an object, so the
    guard [if (!data) return false] does not fire. *)
Definition _parseMessage (data : Buffer) : M (option Message) :=
  try_catch
    (match fromRaw data with
     | DecodeOk m => mret (Some m)
     | DecodeFalsy => mret None
     | DecodeThrows e => throw e
     end)
    (fun E =>
       debug [LStr "[PEER]"; LStr "error parsing message:"; LErr E] ;;
       mret None).

(** Whether the Codec decodes a chunk into a message. *)
Definition decodes (data : Buffer) : bool :=
  match fromRaw data with DecodeOk _ => true | _ => false end.

(** The diagnostic [_parseMessage] logs when the Codec throws. *)
Definition parse_diagnostic (data : Buffer) : list Effect :=
  match fromRaw data with
  | DecodeThrows e => [Debug [LStr "[PEER]"; LStr "error parsing message:"; LErr e]]
  | _ => []
  end.

(** The [P2P_INSTRUCTION] case of [_handleMessage], lines 239-255. *)
Definition handle_instruction (m : Message) : M Response :=
  let stack := split " " (msg_data m) in
  let opcode := stack !! 1%nat in
  if from_option (String.eqb "SIGN") false opcode then
    let script :=
      (sign_hex (default EmptyString (stack !! 0%nat)) ++ " " ++ "CHECKSIG")%string in
    mret (RMessage (Message_fromVector P2P_INSTRUCTION (VString script)))
  else
    log [LStr "[PEER]";
         LTemplate [LStr "unhandled instruction "; LStr dq;
                    LVal (from_option VString VUndefined opcode); LStr dq]] ;;
    mret RNull.

(** lib/peer.js, lines 192-259.  The [switch] tries the [case] labels in
    source order and falls to [default] when none matches. *)
Definition _handleMessage (message : option Message) : M Response :=
  match message with
  | None => mret RFalse
  | Some m =>
      p ← get_self;
      if Z.eqb (msg_type m) P2P_IDENT_REQUEST then
        mret (RMessage (Message_fromVector P2P_IDENT_RESPONSE (VString (peer_id p))))
      else if Z.eqb (msg_type m) P2P_IDENT_RESPONSE then
        (if not_get (peers p) (msg_data m) then
           let peer := {| remote_id := msg_data m |} in
           set_self (fun q => with_peers (assign (peers q) (msg_data m) peer) q) ;;
           emit (ev_peer (remote_id peer))
         else mret tt) ;;
        mret RNull
      else if Z.eqb (msg_type m) P2P_STATE_CHANGE then
        log [LStr "type was STATE_CHANGE, change is:"; LVal (VString (msg_data m))] ;;
        match JSON_parse (msg_data m) with
        | None =>
            debug [LStr "Could not parse change:"; LVal (VString (msg_data m))] ;;
            mret RFalse
        | Some changes =>
            (if truthy changes then emit (ev_changes changes) else mret tt) ;;
            mret RNull
        end
      else if Z.eqb (msg_type m) P2P_ROOT then
        let response := Message_fromVector P2P_STATE_COMMITTMENT (state p) in
        log [LStr "type was ROOT, sending state root:"; LMsg response] ;;
        log [LStr "type was ROOT, state was:"; LVal (state p)] ;;
        mret (RMessage response)
      else if Z.eqb (msg_type m) P2P_PING then
        let response := Message_fromVector P2P_PONG (msg_id m) in
        log [LTemplate [LStr "type was PING ("; LVal (msg_id m);
                        LStr "), sending PONG:"];
             LMsg response] ;;
        mret (RMessage response)
      else if Z.eqb (msg_type m) P2P_INSTRUCTION then
        handle_instruction m
      else
        log [LStr "[PEER]";
             LTemplate [LStr "unhandled message type "; LStr dq;
                        LNum (msg_type m); LStr dq]] ;;
        mret RNull
  end.

Definition is_message (message : option Message) : bool :=
  match message with Some _ => true | None => false end.

(** The [data] listener installed by [_connect], lines 81-90. *)
Definition dialed_data_listener (this : SocketRef) (data : Buffer) : M unit :=
  message ← _parseMessage data;
  response ← _handleMessage message;
  (if negb (is_message message) then socket_destroy this else mret tt) ;;
  match response with
  | RMessage m => socket_write this (asRaw m)
  | _ => mret tt
  end.

(** The [data] listener installed by [_handleConnection], lines 146-155. *)
Definition accepted_data_listener (this : SocketRef) (data : Buffer) : M unit :=
  message ← _parseMessage data;
  response ← _handleMessage message;
  (if negb (is_message message) then socket_destroy this else mret tt) ;;
  match response with
  | RMessage m => socket_write this (asRaw m)
  | _ => mret tt
  end.

(** The [error] listener installed by [_connect], lines 76-78. *)
Definition dialed_error_listener (address : string) (err : Error) : M unit :=
  debug [LStr "[PEER]";
         LTemplate [LStr "could not connect to peer "; LStr address;
                    LStr " — Reason:"];
         LErr err].

(** The callback given to [connect] by [_connect], lines 93-105. *)
Definition dialed_connect_listener (address : string) : M unit :=
  emit (ev_connection address "handshake" true) ;;
  log [LTemplate [LStr "connection to "; LStr address; LStr " established!"]] ;;
  p ← get_self;
  let message := Message_fromVector P2P_IDENT_REQUEST (VString (peer_id p)) in
  c ← connection_at address;
  socket_write c (asRaw message).

(** The [end] listener installed by [_handleConnection], lines 140-143. *)
Definition accepted_end_listener (address : string) : M unit :=
  log [LStr "connection ended:"; LStr address] ;;
  emit (ev_part address).

(** lib/peer.js, lines 65-111. *)
Definition _connect (address : string) : M ConnectResult :=
  p ← get_self;
  let parts := split ":" address in
  let known := Object_keys (connections p) in
  if negb (length parts =? 2)%nat then
    debug [LStr "Invalid address:"; LStr address] ;; mret ResultOfDebug
  else if includes known address then
    mret (connection_result (own (connections p) address))
  else
    try_catch
      (r ← new_Socket;
       set_self (fun q => with_connections (assign (connections q) address r) q) ;;
       c ← connection_at address;
       socket_on c (dialed_error address) ;;
       c ← connection_at address;
       socket_on c dialed_data ;;
       c ← connection_at address;
       socket_connect c (default EmptyString (parts !! 1%nat))
         (default EmptyString (parts !! 0%nat)) (dialed_connect address))
      (fun E => log [LStr "[PEER]"; LStr "failed to connect:"; LErr E]) ;;
    q ← get_self;
    mret (connection_result (own (connections q) address)).

(** lib/peer.js, lines 128-159. *)
Definition _handleConnection (socket : SocketRef) : M unit :=
  s ← read_socket socket;
  let address := join2 ":" (remoteAddress s) (remotePort s) in
  log [LStr "incoming connection:"; LStr address] ;;
  emit (ev_connection address "connected" false) ;;
  socket_on socket (accepted_end address) ;;
  socket_on socket accepted_data ;;
  set_self (fun q => with_connections (assign (connections q) address socket) q).

(** One turn of the [for (let i in this.connections)] loop of
    [broadcast]. *)
Definition broadcast_step (message : JSValue) (i : string) : M unit :=
  conn ← connection_at i;
  s ← read_socket conn;
  if negb (connecting s) && negb (_hadError s) then
    let msg := Message_fromVector P2P_STATE_CHANGE message in
    socket_write conn (asRaw msg)
  else mret tt.

Fixpoint for_in (keys : list string) (body : string -> M unit) : M unit :=
  match keys with
  | [] => mret tt
  | i :: rest => body i ;; for_in rest body
  end.

(** lib/peer.js, lines 161-172.  The keys of the table are visited in
    insertion order: every key stored by [_connect] or
    [_handleConnection] contains a colon, so none is an array index. *)
Definition broadcast (message : JSValue) : M unit :=
  let message :=
    if negb (typeof_is_string message) then JSON_stringify message else message in
  p ← get_self;
  for_in (Object_keys (connections p)) (broadcast_step message).

(** Node's check of a numeric port. *)
Definition isLegalPortNumber (port : Z) : bool :=
  Z.leb 0 port && Z.leb port 0xFFFF.

(** lib/peer.js, lines 179-189. *)
Definition listen : M unit :=
  effect CreateServer ;;
  set_self (with_server (Some {| server_open := false |})) ;;
  p ← get_self;
  if isLegalPortNumber (cfg_port (config p)) then
    set_self (with_server (Some {| server_open := true |})) ;;
    effect (ServerListen (cfg_port (config p)) (cfg_address (config p)))
  else throw (RangeError "Port should be >= 0 and < 65536").

(** The callback given to [server.listen] by [listen], lines 182-187. *)
Definition listening_listener : M unit :=
  p ← get_self;
  (if cfg_debug (config p) then
     log [LStr "[PEER]";
          LTemplate [LStr (peer_id p); LStr " now listening on tcp://";
                     LStr (address p); LStr ":"; LNum (port p)]]
   else mret tt) ;;
  emit ev_ready.

Definition has_server (p : Peer) : bool :=
  match server p with Some _ => true | None => false end.

(** lib/peer.js, lines 261-265. *)
Definition start : M unit :=
  p ← get_self;
  if negb (has_server p) then listen else mret tt.

(** lib/peer.js, lines 267-269. [this.server] is [undefined] until
    [listen] has run; calling a method on it raises a TypeError. *)
Definition stop : M unit :=
  p ← get_self;
  match server p with
  | None => throw (TypeError "Cannot read properties of undefined (reading 'close')")
  | Some _ =>
      set_self (with_server (Some {| server_open := false |})) ;;
      effect ServerClose
  end.

(* --------------------------------------------------------------------- *)
(** *** The runtime delivering socket events *)
(* --------------------------------------------------------------------- *)

(** Node calls the listeners registered for an event in registration
    order; an exception thrown by one of them stops the delivery. *)
Fixpoint emit_data (this : SocketRef) (ls : list Listener) (data : Buffer) : M unit :=
  match ls with
  | [] => mret tt
  | dialed_data :: rest =>
      dialed_data_listener this data ;; emit_data this rest data
  | accepted_data :: rest =>
      accepted_data_listener this data ;; emit_data this rest data
  | _ :: rest => emit_data this rest data
  end.

Fixpoint emit_error (ls : list Listener) (err : Error) : M unit :=
  match ls with
  | [] => mret tt
  | dialed_error address :: rest =>
      dialed_error_listener address err ;; emit_error rest err
  | _ :: rest => emit_error rest err
  end.

Fixpoint emit_connect (ls : list Listener) : M unit :=
  match ls with
  | [] => mret tt
  | dialed_connect address :: rest =>
      dialed_connect_listener address ;; emit_connect rest
  | _ :: rest => emit_connect rest
  end.

Fixpoint emit_end (ls : list Listener) : M unit :=
  match ls with
  | [] => mret tt
  | accepted_end address :: rest =>
      accepted_end_listener address ;; emit_end rest
  | _ :: rest => emit_end rest
  end.

(** A chunk of bytes arrives on socket [r]. *)
Definition socket_data (r : SocketRef) (data : Buffer) : M unit :=
  s ← read_socket r;
  emit_data r (listeners s) data.

(** The connection attempt of socket [r] succeeds. *)
Definition socket_connected (r : SocketRef) : M unit :=
  set_sockets (alter (set_connecting false) r) ;;
  s ← read_socket r;
  emit_connect (listeners s).

(** Socket [r] fails with [err]. *)
Definition socket_error (r : SocketRef) (err : Error) : M unit :=
  set_sockets (alter (fun s => set_hadError true (set_connecting false s)) r) ;;
  s ← read_socket r;
  emit_error (listeners s) err.

(** The remote side of socket [r] ends the stream. *)
Definition socket_end (r : SocketRef) : M unit :=
  s ← read_socket r;
  emit_end (listeners s).

(** The server accepts a transport from [remoteAddress:remotePort] and
    hands the new socket to [_handleConnection]. *)
Definition server_connection (ra rp : string) : M unit :=
  r ← (fun w =>
         Returned (length (sockets w))
           {| self := self w;
              sockets := sockets w ++ [fresh_socket (Some ra) (Some rp)];
              trace := trace w ++ [NewSocket (length (sockets w))] |});
  _handleConnection r.

(* --------------------------------------------------------------------- *)
(** *** Runs of a peer *)
(* --------------------------------------------------------------------- *)

(** What can happen to a peer: a call of one of its methods by the host
    application, or an event delivered by the runtime. *)
Inductive Action : Type :=
| call_connect (address : string)
| call_broadcast (message : JSValue)
| call_start
| call_stop
| server_listening
| server_accepts (remoteAddress remotePort : string)
| data_arrives (r : SocketRef) (data : Buffer)
| connect_succeeds (r : SocketRef)
| socket_fails (r : SocketRef) (err : Error)
| stream_ends (r : SocketRef).

Definition perform (a : Action) : M unit :=
  match a with
  | call_connect address => _connect address ;; mret tt
  | call_broadcast message => broadcast message
  | call_start => start
  | call_stop => stop
  | server_listening => listening_listener
  | server_accepts ra rp => server_connection ra rp
  | data_arrives r data => socket_data r data
  | connect_succeeds r => socket_connected r
  | socket_fails r err => socket_error r err
  | stream_ends r => socket_end r
  end.

(** The worlds a new peer can get to.  A call that throws leaves the world
    as it was when the exception was raised. *)
Inductive reachable : World -> Prop :=
| reachable_new (cfg : Config) (id : string) (st : JSValue) :
    reachable (new_World (new_Peer cfg id st))
| reachable_step (w : World) (a : Action) :
    reachable w -> reachable (world_of (perform a w)).

End PeerMethods.

(* ===================================================================== *)
(** ** Observations on traces *)
(* ===================================================================== *)

Definition is_write (e : Effect) : bool :=
  match e with SocketWrite _ _ => true | _ => false end.

Definition is_write_to (r : SocketRef) (e : Effect) : bool :=
  match e with SocketWrite r' _ => Nat.eqb r r' | _ => false end.

Definition is_destroy (e : Effect) : bool :=
  match e with SocketDestroy _ => true | _ => false end.

Definition is_emit (e : Effect) : bool :=
  match e with Emit _ => true | _ => false end.

(** The frames written, the events emitted. *)
Definition writes (t : list Effect) : list Effect := List.filter is_write t.
Definition writes_to (r : SocketRef) (t : list Effect) : list Effect :=
  List.filter (is_write_to r) t.
Definition destroys (t : list Effect) : list Effect := List.filter is_destroy t.
Definition emitted (t : list Effect) : list Effect := List.filter is_emit t.

(* ===================================================================== *)
(** ** Well-formed connection tables *)
(* ===================================================================== *)

(** The sockets [broadcast] writes to: not mid-connect, no earlier error. *)
Definition eligible (ss : list Socket) (r : SocketRef) : bool :=
  match ss !! r with
  | Some s => negb (connecting s) && negb (_hadError s)
  | None => false
  end.

(** The socket [_connect] leaves in the store for a new address. *)
Definition dialed_socket (address : string) : Socket :=
  {| connecting := true; _hadError := false; destroyed := false;
     remoteAddress := None; remotePort := None;
     listeners := [dialed_error address; dialed_data; dialed_connect address] |}.

(** The socket the store holds after [_handleConnection] has accepted a
    transport from [ra:rp]. *)
Definition accepted_socket (ra rp : string) : Socket :=
  {| connecting := false; _hadError := false; destroyed := false;
     remoteAddress := Some ra; remotePort := Some rp;
     listeners := [accepted_end (join2 ":" (Some ra) (Some rp)); accepted_data] |}.

(** The references held by a connection table. *)
Definition table_refs (t : Table SocketRef) : list SocketRef := map snd t.

(** The connection table of a running peer: every key occurs once, every
    entry refers to a socket of the store, and no socket is entered under
    two addresses. *)
Definition connections_ok (w : World) : Prop :=
  NoDup (Object_keys (connections (self w)))
  /\ NoDup (table_refs (connections (self w)))
  /\ Forall (fun r => r < length (sockets w))%nat (table_refs (connections (self w))).

(** The frame [broadcast] writes for a payload. *)
Definition broadcast_frame (asRaw : OutMessage -> Buffer)
    (JSON_stringify : JSValue -> JSValue) (p : JSValue) : Buffer :=
  asRaw (Message_fromVector P2P_STATE_CHANGE
           (if typeof_is_string p then p else JSON_stringify p)).

(** A computation that leaves the connection table and the size of the
    socket store as they are, whichever way it ends. *)
Definition keeps_table {A} (c : M A) : Prop :=
  forall w,
    connections (self (world_of (c w))) = connections (self w)
    /\ length (sockets (world_of (c w))) = length (sockets w).

(* ===================================================================== *)
(** ** Reference collaborators *)
(* ===================================================================== *)

(** Executable stand-ins for the collaborators, used to run the methods on
    concrete inputs.  The statements about the methods hold for every
    choice of collaborators. *)

Module JSON.

(** *** JSON.parse (ECMA-404 grammar) *)

Definition dquote : ascii := ascii_of_nat 34.
Definition backslash : ascii := ascii_of_nat 92.

Definition is_ws (c : ascii) : bool :=
  let n := nat_of_ascii c in
  Nat.eqb n 32 || Nat.eqb n 9 || Nat.eqb n 10 || Nat.eqb n 13.

Fixpoint skip_ws (s : string) : string :=
  match s with
  | String c rest => if is_ws c then skip_ws rest else s
  | EmptyString => s
  end.

Definition digit_of (c : ascii) : option Z :=
  let n := Z.of_nat (nat_of_ascii c) in
  if Z.leb 48 n && Z.leb n 57 then Some (n - 48) else None.

Definition hex_of (c : ascii) : option Z :=
  let n := Z.of_nat (nat_of_ascii c) in
  if Z.leb 48 n && Z.leb n 57 then Some (n - 48)
  else if Z.leb 65 n && Z.leb n 70 then Some (n - 55)
  else if Z.leb 97 n && Z.leb n 102 then Some (n - 87)
  else None.

(** Drops a literal prefix. *)
Fixpoint expect (lit s : string) : option string :=
  match lit, s with
  | EmptyString, _ => Some s
  | String a lit', String b s' => if Ascii.eqb a b then expect lit' s' else None
  | String _ _, EmptyString => None
  end.

Definition byte (n : Z) : ascii := ascii_of_nat (Z.to_nat n).

(** The UTF-8 bytes of a code point (surrogates included, for escapes that
    name half of a pair). *)
Definition utf8 (cp : Z) : string :=
  if Z.ltb cp 0x80 then String (byte cp) EmptyString
  else if Z.ltb cp 0x800 then
    String (byte (0xC0 + cp / 64)) (String (byte (0x80 + cp mod 64)) EmptyString)
  else if Z.ltb cp 0x10000 then
    String (byte (0xE0 + cp / 4096))
      (String (byte (0x80 + (cp / 64) mod 64))
         (String (byte (0x80 + cp mod 64)) EmptyString))
  else
    String (byte (0xF0 + cp / 262144))
      (String (byte (0x80 + (cp / 4096) mod 64))
         (String (byte (0x80 + (cp / 64) mod 64))
            (String (byte (0x80 + cp mod 64)) EmptyString))).

(** Four hexadecimal digits. *)
Definition hex4 (s : string) : option (Z * string) :=
  match s with
  | String a (String b (String c (String d rest))) =>
      match hex_of a, hex_of b, hex_of c, hex_of d with
      | Some x, Some y, Some z, Some t => Some (((x * 16 + y) * 16 + z) * 16 + t, rest)
      | _, _, _, _ => None
      end
  | _ => None
  end.

(** The code point named by a [\u] escape with code unit [u], joined with a
    following low surrogate escape when [u] is a high surrogate. *)
Definition unicode_escape (u : Z) (rest : string) : Z * string :=
  if Z.leb 0xD800 u && Z.leb u 0xDBFF then
    match rest with
    | String b (String c rest') =>
        if Ascii.eqb b backslash && Ascii.eqb c "u" then
          match hex4 rest' with
          | Some (lo, rest'') =>
              if Z.leb 0xDC00 lo && Z.leb lo 0xDFFF then
                (0x10000 + (u - 0xD800) * 1024 + (lo - 0xDC00), rest'')
              else (u, rest)
          | None => (u, rest)
          end
        else (u, rest)
    | _ => (u, rest)
    end
  else (u, rest).

(** The characters of a string literal after its opening quote. *)
Fixpoint parse_chars (fuel : nat) (s : string) (acc : string) : option (string * string) :=
  match fuel with
  | O => None
  | S fuel' =>
      match s with
      | EmptyString => None
      | String c rest =>
          if Ascii.eqb c dquote then Some (acc, rest)
          else if Ascii.eqb c backslash then
            match rest with
            | String e rest' =>
                let simple (x : Z) :=
                  parse_chars fuel' rest' (acc ++ String (byte x) EmptyString)%string in
                if Ascii.eqb e dquote then simple 34
                else if Ascii.eqb e backslash then simple 92
                else if Ascii.eqb e "/" then simple 47
                else if Ascii.eqb e "b" then simple 8
                else if Ascii.eqb e "f" then simple 12
                else if Ascii.eqb e "n" then simple 10
                else if Ascii.eqb e "r" then simple 13
                else if Ascii.eqb e "t" then simple 9
                else if Ascii.eqb e "u" then
                  match hex4 rest' with
                  | Some (u, rest'') =>
                      let '(cp, rest3) := unicode_escape u rest'' in
                      parse_chars fuel' rest3 (acc ++ utf8 cp)%string
                  | None => None
                  end
                else None
            | EmptyString => None
            end
          else if Nat.ltb (nat_of_ascii c) 32 then None
          else parse_chars fuel' rest (acc ++ String c EmptyString)%string
      end
  end.

(** A run of decimal digits: their value, their count, and the rest. *)
Fixpoint digits (s : string) (acc : Z) (n : Z) : Z * Z * string :=
  match s with
  | String c rest =>
      match digit_of c with
      | Some d => digits rest (acc * 10 + d) (n + 1)
      | None => (acc, n, s)
      end
  | EmptyString => (acc, n, s)
  end.

(** The binary64 value nearest to [(-1)^sign * m * 10^e] (ties to even). *)
Definition decimal_to_Number (sign : bool) (m e : Z) : Number :=
  match m with
  | Zpos p =>
      if Z.leb 0 e then
        binary_round 53 1024 sign (Z.to_pos (Zpos p * 10 ^ e)) 0
      else
        let '(q, e', l) := SFdiv_core_binary 53 1024 (Zpos p) 0 (10 ^ (- e)) 0 in
        binary_round_aux 53 1024 sign q e' l
  | _ => S754_zero sign
  end.

(** number = [-] int [frac] [exp] *)
Definition parse_number (s : string) : option (Number * string) :=
  let '(sign, s1) :=
    match s with
    | String "-" rest => (true, rest)
    | _ => (false, s)
    end in
  let '(int, nint, s2) := digits s1 0 0 in
  let leading_zero :=
    match s1 with String "0" _ => Z.ltb 1 nint | _ => false end in
  if Z.eqb nint 0 || leading_zero then None
  else
    let frac :=
      match s2 with
      | String "." rest =>
          let '(m, n, s3) := digits rest int 0 in
          if Z.eqb n 0 then None else Some (m, n, s3)
      | _ => Some (int, 0, s2)
      end in
    match frac with
    | None => None
    | Some (m, nfrac, s3) =>
        let with_exp (rest : string) (neg : bool) :=
          let '(x, nx, s4) := digits rest 0 0 in
          if Z.eqb nx 0 then None
          else Some (decimal_to_Number sign m ((if neg then - x else x) - nfrac), s4) in
        match s3 with
        | String c rest =>
            if Ascii.eqb c "e" || Ascii.eqb c "E" then
              match rest with
              | String "+" rest' => with_exp rest' false
              | String "-" rest' => with_exp rest' true
              | _ => with_exp rest false
              end
            else Some (decimal_to_Number sign m (- nfrac), s3)
        | EmptyString => Some (decimal_to_Number sign m (- nfrac), s3)
        end
    end.

(** An array index: the canonical decimal text of an integer below
    [2^32 - 1].  Such keys are enumerated first, in ascending order. *)
Definition array_index (k : string) : option Z :=
  let '(v, n, rest) := digits k 0 0 in
  let canonical :=
    match k with
    | String "0" EmptyString => true
    | String "0" _ => false
    | _ => negb (Z.eqb n 0)
    end in
  if canonical && is_empty_string rest && Z.ltb v 4294967295 then Some v else None.

(** Inserting a new index key [i] among the index keys. *)
Fixpoint insert_index (i : Z) (k : string) (v : JSValue)
    (props : list (string * JSValue)) : list (string * JSValue) :=
  match props with
  | [] => [(k, v)]
  | (k', v') :: rest =>
      match array_index k' with
      | Some j => if Z.ltb j i then (k', v') :: insert_index i k v rest
                  else (k, v) :: props
      | None => (k, v) :: props
      end
  end.

(** Defining property [k] of an object under construction. *)
Definition define_property (props : list (string * JSValue)) (k : string)
    (v : JSValue) : list (string * JSValue) :=
  match own props k with
  | Some _ => assign props k v
  | None =>
      match array_index k with
      | Some i => insert_index i k v props
      | None => props ++ [(k, v)]
      end
  end.

Fixpoint parse_value (fuel : nat) (s : string) : option (JSValue * string) :=
  match fuel with
  | O => None
  | S fuel' =>
      match skip_ws s with
      | EmptyString => None
      | String c rest as s' =>
          if Ascii.eqb c "n" then
            rest' ← expect "ull" rest; Some (VNull, rest')
          else if Ascii.eqb c "t" then
            rest' ← expect "rue" rest; Some (VBool true, rest')
          else if Ascii.eqb c "f" then
            rest' ← expect "alse" rest; Some (VBool false, rest')
          else if Ascii.eqb c dquote then
            '(str, rest') ← parse_chars (S (String.length rest)) rest EmptyString;
            Some (VString str, rest')
          else if Ascii.eqb c "[" then
            match skip_ws rest with
            | String "]" rest' => Some (VArray [], rest')
            | _ => parse_elements fuel' rest []
            end
          else if Ascii.eqb c "{" then
            match skip_ws rest with
            | String "}" rest' => Some (VObject [], rest')
            | _ => parse_members fuel' rest []
            end
          else
            '(n, rest') ← parse_number s'; Some (VNumber n, rest')
      end
  end
with parse_elements (fuel : nat) (s : string) (acc : list JSValue)
    : option (JSValue * string) :=
  match fuel with
  | O => None
  | S fuel' =>
      '(v, rest) ← parse_value fuel' s;
      match skip_ws rest with
      | String "," rest' => parse_elements fuel' rest' (acc ++ [v])
      | String "]" rest' => Some (VArray (acc ++ [v]), rest')
      | _ => None
      end
  end
with parse_members (fuel : nat) (s : string) (acc : list (string * JSValue))
    : option (JSValue * string) :=
  match fuel with
  | O => None
  | S fuel' =>
      match skip_ws s with
      | String c rest =>
          if Ascii.eqb c dquote then
            '(k, rest1) ← parse_chars (S (String.length rest)) rest EmptyString;
            match skip_ws rest1 with
            | String ":" rest2 =>
                '(v, rest3) ← parse_value fuel' rest2;
                match skip_ws rest3 with
                | String "," rest4 => parse_members fuel' rest4 (define_property acc k v)
                | String "}" rest4 => Some (VObject (define_property acc k v), rest4)
                | _ => None
                end
            | _ => None
            end
          else None
      | EmptyString => None
      end
  end.

(** [JSON.parse(text)]: one value, surrounded by optional white space.
    [None] stands for the SyntaxError. *)
Definition parse (text : string) : option JSValue :=
  '(v, rest) ← parse_value (S (String.length text)) text;
  if is_empty_string (skip_ws rest) then Some v else None.

(** *** JSON.stringify *)

Definition pow10 (n : Z) : Z := 10 ^ n.

(** [x < 10^n] for the positive rational [x = num / den]. *)
Definition below_pow10 (num den n : Z) : bool :=
  if Z.leb 0 n then Z.ltb num (den * pow10 n)
  else Z.ltb (num * pow10 (- n)) den.

(** The least [n] from [n0] on with [num / den < 10^n]. *)
Fixpoint decimal_exponent (fuel : nat) (num den n0 : Z) : Z :=
  match fuel with
  | O => n0
  | S fuel' =>
      if below_pow10 num den n0 then n0
      else decimal_exponent fuel' num den (n0 + 1)
  end.

Definition Number_eqb (x y : Number) : bool :=
  match x, y with
  | S754_zero a, S754_zero b => Bool.eqb a b
  | S754_infinity a, S754_infinity b => Bool.eqb a b
  | S754_finite a m e, S754_finite b m' e' =>
      Bool.eqb a b && Pos.eqb m m' && Z.eqb e e'
  | _, _ => false
  end.

(** The shortest decimal [s * 10^(n-k)], with [k] digits in [s], that reads
    back as the positive number [m * 2^e]; of two candidates of the same
    length the nearer one, and the even one on a tie. *)
Fixpoint shortest (fuel : nat) (k : Z) (m : positive) (e : Z) (num den n : Z)
    : Z * Z * Z :=
  let scale := n - k in
  let lo :=
    if Z.leb 0 scale then num / (den * pow10 scale)
    else (num * pow10 (- scale)) / den in
  let hi := lo + 1 in
  let reads_back (s : Z) :=
    Number_eqb (decimal_to_Number false s scale) (S754_finite false m e) in
  let twice :=
    (* compares 2 * x * 10^(k-n) with 2 * lo + 1 *)
    if Z.leb 0 scale then Z.compare (2 * num) ((2 * lo + 1) * den * pow10 scale)
    else Z.compare (2 * num * pow10 (- scale)) ((2 * lo + 1) * den) in
  let pick :=
    match reads_back lo, reads_back hi with
    | true, true =>
        match twice with
        | Lt => Some lo
        | Gt => Some hi
        | Eq => Some (if Z.even lo then lo else hi)
        end
    | true, false => Some lo
    | false, true => Some hi
    | false, false => None
    end in
  match pick, fuel with
  | Some s, _ =>
      if Z.eqb s (pow10 k) then (pow10 (k - 1), k, n + 1) else (s, k, n)
  | None, S fuel' => shortest fuel' (k + 1) m e num den n
  | None, O => (lo, k, n)
  end.

Fixpoint zeros (n : nat) : string :=
  match n with O => EmptyString | S n' => String "0" (zeros n') end.

Fixpoint decimal_digits (fuel : nat) (s : Z) (acc : string) : string :=
  match fuel with
  | O => acc
  | S fuel' =>
      let acc' := String (byte (48 + s mod 10)) acc in
      if Z.ltb s 10 then acc' else decimal_digits fuel' (s / 10) acc'
  end.

Definition decimal (s : Z) : string := decimal_digits 400 s EmptyString.

Fixpoint take_string (n : nat) (s : string) : string :=
  match n, s with
  | S n', String c rest => String c (take_string n' rest)
  | _, _ => EmptyString
  end.

Fixpoint drop_string (n : nat) (s : string) : string :=
  match n, s with
  | S n', String _ rest => drop_string n' rest
  | _, _ => s
  end.

(** Number::toString for a positive finite number, from its digits [s],
    their count [k] and the decimal exponent [n]. *)
Definition format_decimal (s k n : Z) : string :=
  let ds := decimal s in
  (if Z.leb k n && Z.leb n 21 then ds ++ zeros (Z.to_nat (n - k))
   else if Z.ltb 0 n && Z.leb n 21 then
     take_string (Z.to_nat n) ds ++ "." ++ drop_string (Z.to_nat n) ds
   else if Z.ltb (-6) n && Z.leb n 0 then
     "0." ++ zeros (Z.to_nat (- n)) ++ ds
   else
     let x := n - 1 in
     let exponent := (if Z.ltb x 0 then "-" else "+") ++ decimal (Z.abs x) in
     if Z.eqb k 1 then ds ++ "e" ++ exponent
     else take_string 1 ds ++ "." ++ drop_string 1 ds ++ "e" ++ exponent)%string.

(** Number::toString, for the numbers JSON can carry. *)
Definition Number_toString (x : Number) : option string :=
  match x with
  | S754_zero _ => Some "0"
  | S754_finite sign m e =>
      let num := if Z.leb 0 e then Zpos m * 2 ^ e else Zpos m in
      let den := if Z.leb 0 e then 1 else 2 ^ (- e) in
      let n := decimal_exponent 700 num den (-324) in
      let '(s, k, n') := shortest 17 1 m e num den n in
      Some ((if sign then "-" else EmptyString) ++ format_decimal s k n')%string
  | S754_infinity _ | S754_nan => None
  end.

Definition hex_digit (n : Z) : ascii :=
  if Z.ltb n 10 then byte (48 + n) else byte (87 + n).

Definition escape_unit (u : Z) : string :=
  String backslash
    (String "u"
       (String (hex_digit (u / 4096))
          (String (hex_digit ((u / 256) mod 16))
             (String (hex_digit ((u / 16) mod 16))
                (String (hex_digit (u mod 16)) EmptyString))))).

(** QuoteJSONString, on the UTF-8 bytes of the text. *)
Fixpoint quote_chars (s : string) : string :=
  match s with
  | EmptyString => EmptyString
  | String c rest =>
      let n := Z.of_nat (nat_of_ascii c) in
      let two (e : ascii) := String backslash (String e (quote_chars rest)) in
      if Z.eqb n 34 then two dquote
      else if Z.eqb n 92 then two backslash
      else if Z.eqb n 8 then two "b"%char
      else if Z.eqb n 12 then two "f"%char
      else if Z.eqb n 10 then two "n"%char
      else if Z.eqb n 13 then two "r"%char
      else if Z.eqb n 9 then two "t"%char
      else if Z.ltb n 32 then (escape_unit n ++ quote_chars rest)%string
      else String c (quote_chars rest)
  end.

Definition quote (s : string) : string :=
  String dquote (quote_chars s ++ String dquote EmptyString)%string.

Fixpoint join (sep : string) (l : list string) : string :=
  match l with
  | [] => EmptyString
  | [x] => x
  | x :: rest => (x ++ sep ++ join sep rest)%string
  end.

(** SerializeJSONProperty: [None] stands for [undefined]. *)
Fixpoint serialize (v : JSValue) : option string :=
  match v with
  | VUndefined => None
  | VNull => Some "null"
  | VBool true => Some "true"
  | VBool false => Some "false"
  | VNumber n => Some (default "null" (Number_toString n))
  | VString s => Some (quote s)
  | VArray items =>
      Some ("[" ++ join "," (map (fun i => default "null" (serialize i)) items) ++ "]")%string
  | VObject props =>
      Some ("{" ++ join ","
              (omap (fun kv => match kv with
                               | (k, x) =>
                                   match serialize x with
                                   | Some t => Some (quote k ++ ":" ++ t)%string
                                   | None => None
                                   end
                               end) props) ++ "}")%string
  end.

(** [JSON.stringify(value)] *)
Definition stringify (v : JSValue) : JSValue :=
  match serialize v with
  | Some s => VString s
  | None => VUndefined
  end.

End JSON.

Module Sample.

(** Node's check of the port text given to [socket.connect], for the
    texts the examples use: a blank text and a decimal number above 65535
    are refused with a RangeError, a decimal number up to 65535 is
    accepted.  A text that is not a number is taken by Node as the name of
    a pipe and fails later, through the [error] event. *)
Definition connect_error (port host : string) : option Error :=
  let '(v, n, rest) := JSON.digits port 0 0 in
  if is_empty_string port then Some (RangeError "Port should be >= 0 and < 65536")
  else if is_empty_string rest && negb (Z.leb v 0xFFFF) then
    Some (RangeError "Port should be >= 0 and < 65536")
  else None.

(** A one-line codec: a byte of type, a byte of correlation id, then the
    payload text.  Shorter input is refused with an exception. *)
Definition fromRaw (data : Buffer) : Decoded :=
  match data with
  | t :: i :: payload =>
      DecodeOk {| msg_type := Z.of_nat (nat_of_ascii t);
                  msg_id := VString (String i EmptyString);
                  msg_data := string_of_list_ascii payload |}
  | _ => DecodeThrows {| err_name := "Error"; err_message := "Input too short" |}
  end.

Definition asRaw (m : OutMessage) : Buffer :=
  JSON.byte (out_type m) ::
  match out_data m with
  | VString s => list_ascii_of_string s
  | v => match JSON.serialize v with
         | Some s => list_ascii_of_string s
         | None => []
         end
  end.

(** A signer that only marks its input. *)
Definition sign_hex (text : string) : string := ("sig(" ++ text ++ ")")%string.

Definition peer0 : Peer :=
  new_Peer default_config "local-peer-id" (VObject []).

Definition world0 : World := new_World peer0.

(** The world after dialing 127.0.0.1:7777: socket 0 is connecting. *)
Definition world_dialing : World :=
  world_of (_connect connect_error "127.0.0.1:7777" world0).

(** The world after accepting a transport from 10.0.0.2:5000. *)
Definition world_accepted : World :=
  world_of (server_connection "10.0.0.2" "5000" world0).

(** The world after accepting a transport from the IPv6 address ::1,
    port 5000: the key of the entry is ::1:5000. *)
Definition world_accepted_ipv6 : World :=
  world_of (server_connection "::1" "5000" world0).

(** A dialed connection that is established (socket 0), an accepted one
    (socket 1) and one still connecting (socket 2). *)
Definition world_three : World :=
  world_of ((_connect connect_error "127.0.0.1:7777" ;;
             socket_connected asRaw 0%nat ;;
             server_connection "10.0.0.2" "5000" ;;
             _connect connect_error "10.0.0.3:7777") world0).

Definition ping7 : Message :=
  {| msg_type := P2P_PING; msg_id := VString "7"; msg_data := EmptyString |}.

Definition ident_request_from (id : string) : Message :=
  {| msg_type := P2P_IDENT_REQUEST; msg_id := VUndefined; msg_data := id |}.

Definition state_change (payload : string) : Message :=
  {| msg_type := P2P_STATE_CHANGE; msg_id := VUndefined; msg_data := payload |}.

(** The text [{"path":"/a","value":1}]. *)
Definition path_value_text : string :=
  String "{" (JSON.quote "path" ++ ":" ++ JSON.quote "/a" ++ ","
              ++ JSON.quote "value" ++ ":1}")%string.

Definition one : Number := S754_finite false 4503599627370496 (-52).

End Sample.

(* ===================================================================== *)
(** ** Further observations on worlds and texts *)
(* ===================================================================== *)

(** Whether a text contains the character [c]. *)
Fixpoint contains (c : ascii) (s : string) : bool :=
  match s with
  | EmptyString => false
  | String c' rest => Ascii.eqb c' c || contains c rest
  end.

(** The message types [_handleMessage] has a [case] for. *)
Definition handled_types : list Z :=
  [P2P_IDENT_REQUEST; P2P_IDENT_RESPONSE; P2P_STATE_CHANGE; P2P_ROOT; P2P_PING;
   P2P_INSTRUCTION].

(** A result of [_handleMessage] that is not a message to send. *)
Definition no_reply (r : Response) : Prop :=
  match r with RMessage _ => False | _ => True end.

(** The fields of a Peer that no method assigns after construction. *)
Definition identity (p : Peer)
    : Config * string * string * Z * JSValue * Z * list JSValue * Table JSValue :=
  (config p, peer_id p, address p, port p, state p, clock p, stack p, known p).

(** A computation that leaves an observation [f] of the world as it is,
    whichever way it ends. *)
Definition preserves {X A} (f : World -> X) (c : M A) : Prop :=
  forall w, f (world_of (c w)) = f w.

(** A computation that returns, and neither writes to nor destroys any
    socket, nor touches the socket store. *)
Definition quiet {A} (c : M A) : Prop :=
  forall w, exists a w',
    c w = Returned a w'
    /\ sockets w' = sockets w
    /\ writes (trace w') = writes (trace w)
    /\ destroys (trace w') = destroys (trace w).

(** A codec for two-peer runs: one byte of type, then the payload text;
    what it writes it reads back. *)
Module Loopback.

Definition asRaw (m : OutMessage) : Buffer :=
  JSON.byte (out_type m) ::
  match out_data m with
  | VString s => list_ascii_of_string s
  | v => match JSON.serialize v with
         | Some s => list_ascii_of_string s
         | None => []
         end
  end.

Definition fromRaw (data : Buffer) : Decoded :=
  match data with
  | t :: payload =>
      DecodeOk {| msg_type := Z.of_nat (nat_of_ascii t);
                  msg_id := VUndefined;
                  msg_data := string_of_list_ascii payload |}
  | [] => DecodeThrows {| err_name := "Error"; err_message := "Input too short" |}
  end.

(** Two peers: [alice] has dialed [bob] at 10.0.0.2:7777 (socket 0 of her
    world), [bob] has accepted her transport (socket 0 of his). *)
Definition alice : World :=
  world_of (_connect Sample.connect_error "10.0.0.2:7777"
              (new_World (new_Peer default_config "alice-id" (VObject [])))).

Definition bob : World :=
  world_of (server_connection "10.0.0.1" "40000"
              (new_World (new_Peer default_config "bob-id" (VObject [])))).

End Loopback.

(* ===================================================================== *)
(** ** The wallet: [CSVencode] and the chain scan (types/wallet.js) *)
(* ===================================================================== *)

Module Wallet.

(** How a call ends: with a value, or with a thrown [Error]. *)
Inductive Result (A : Type) : Type :=
| Ok (a : A)
| Throws (e : Error).
Arguments Ok {A} a.
Arguments Throws {A} e.

(** ECMAScript ToUint32 and ToInt32, on an integer. *)
Definition ToUint32 (z : Z) : Z := z mod 2 ^ 32.

Definition ToInt32 (z : Z) : Z :=
  let u := z mod 2 ^ 32 in
  if Z.leb (2 ^ 31) u then u - 2 ^ 32 else u.

(** The integer part of a number, toward zero; 0 for NaN and the
    infinities, which is how the bit operators read them. *)
Definition truncate (x : Number) : Z :=
  match x with
  | S754_finite s m e =>
      let a := if Z.leb 0 e then Zpos m * 2 ^ e else Zpos m / 2 ^ (- e) in
      if s then - a else a
  | _ => 0
  end.

(** [x === n] for a number [x] and an integer [n]: the value of [x] is
    exactly [n]. *)
Definition Number_is (x : Number) (n : Z) : bool :=
  match x with
  | S754_zero _ => Z.eqb n 0
  | S754_finite s m e =>
      if Z.leb 0 e then Z.eqb n (if s then - (Zpos m * 2 ^ e) else Zpos m * 2 ^ e)
      else Z.eqb (Zpos m mod 2 ^ (- e)) 0
           && Z.eqb n (if s then - (Zpos m / 2 ^ (- e)) else Zpos m / 2 ^ (- e))
  | _ => false
  end.

(** [a >>> b], [a & b] and [a | b] on integers. *)
Definition ushr (a b : Z) : Z := Z.shiftr (ToUint32 a) (ToUint32 b mod 32).
Definition band (a b : Z) : Z := ToInt32 (Z.land (ToInt32 a) (ToInt32 b)).
Definition bor (a b : Z) : Z := ToInt32 (Z.lor (ToInt32 a) (ToInt32 b)).

Section Consensus.

(** The constants of [this.consensus] (types/consensus.js is not among the
    sources), as integers. *)
Variable SEQUENCE_GRANULARITY : Z.
Variable SEQUENCE_MASK : Z.
Variable SEQUENCE_TYPE_FLAG : Z.

(** types/wallet.js, lines 162-176. *)
Definition CSVencode (locktime : Number) (seconds : bool) : Result Z :=
  let locktimeUint32 := ToUint32 (truncate locktime) in
  if negb (Number_is locktime locktimeUint32) then
    Throws {| err_name := "Error"; err_message := "Locktime must be a uint32." |}
  else if seconds then
    let locktimeUint32 := ushr locktimeUint32 SEQUENCE_GRANULARITY in
    let locktimeUint32 := band locktimeUint32 SEQUENCE_MASK in
    let locktimeUint32 := bor locktimeUint32 SEQUENCE_TYPE_FLAG in
    Ok locktimeUint32
  else
    let locktimeUint32 := band locktimeUint32 SEQUENCE_MASK in
    Ok locktimeUint32.

End Consensus.

(** The lines written to the console. *)
Definition Console := list (list LogArg).

(** types/wallet.js, lines 486-489: logs, and returns [undefined]. *)
Definition _scanBlockForTransactions (block : JSValue) : Console * JSValue :=
  ([[LStr "[AUDIT]"; LStr "Scanning block for transactions:"; LVal block]],
   VUndefined).

(** [array.concat(value)]: a new array; the receiver is left as it is. *)
Definition concat (array : list JSValue) (value : JSValue) : list JSValue :=
  match value with
  | VArray items => array ++ items
  | v => array ++ [v]
  end.

(** The loop of [_scanChainForTransactions] over the blocks still to visit:
    the result of [concat] is dropped. *)
Fixpoint scan_blocks (blocks : list JSValue) (transactions : list JSValue)
    : Console * list JSValue :=
  match blocks with
  | [] => ([], transactions)
  | block :: rest =>
      let '(out, found) := _scanBlockForTransactions block in
      let _ := concat transactions found in
      let '(out', result) := scan_blocks rest transactions in
      (out ++ out', result)
  end.

(** types/wallet.js, lines 491-501, for a chain with the given blocks. *)
Definition _scanChainForTransactions (chain : JSValue) (blocks : list JSValue)
    : Console * list JSValue :=
  let '(out, result) := scan_blocks blocks [] in
  ([LStr "[AUDIT]"; LStr "Scanning chain for transactions:"; LVal chain] :: out,
   result).

End Wallet.

(* ===================================================================== *)
(** ** The terminal interface (lib/cli.js) *)
(* ===================================================================== *)

Module CLI.

(** The boxes of the screen that the handlers write to. *)
Inductive Box : Type := History | Peerlist | Logs.

(** What the handlers do to the widgets, the console, the log and the
    oracle.  A template literal is kept as its pieces. *)
Inductive UI : Type :=
| pushLine (box : Box) (line : list LogArg)
| setScrollPerc (box : Box) (percent : Z)
| screen_render
| console_log (args : list LogArg)
| self_log (args : list LogArg)
| oracle_POST (path : string) (body : JSValue)
| form_reset.

(** Which parts of the interface exist: [self.history] and [self.screen]
    are set when the interface is assembled, [self.oracle] when the
    configuration asks for one; [peers] is the value of [self.peers]. *)
Record State := mkState {
  history : bool;
  screen : bool;
  oracle : bool;
  peers : JSValue
}.

(** A handler run: what it did, and how it ended. *)
Definition Run (A : Type) : Type := list UI * Wallet.Result A.

Definition ret {A} (a : A) : Run A := ([], Wallet.Ok a).
Definition raise {A} (e : Error) : Run A := ([], Wallet.Throws e).
Definition act (u : UI) : Run unit := ([u], Wallet.Ok tt).

Definition bind {A B} (c : Run A) (f : A -> Run B) : Run B :=
  match c with
  | (out, Wallet.Ok a) => let '(out', r) := f a in (out ++ out', r)
  | (out, Wallet.Throws e) => (out, Wallet.Throws e)
  end.

Definition when (b : bool) (c : Run unit) : Run unit := if b then c else ret tt.

(** [v.k] for the property names the handlers read ([input], [created],
    [actor], [path], [value]), none of which is inherited: the own
    property of an object, [undefined] on other values, a TypeError on
    [null] and [undefined]. *)
Definition get (v : JSValue) (k : string) : Run JSValue :=
  match v with
  | VUndefined | VNull => raise (TypeError "Cannot read properties of undefined")
  | VObject props => ret (default VUndefined (own props k))
  | _ => ret VUndefined
  end.

(** [Object.assign(target, source)] on the own properties. *)
Definition Object_assign (target source : list (string * JSValue))
    : list (string * JSValue) :=
  fold_left (fun t kv => assign t (fst kv) (snd kv)) source target.

(** lib/cli.js, lines 306-321. [now] is the value of [new Date()]. *)
Definition _appendMessage (self : State) (now : JSValue) (message : JSValue)
    : Run unit :=
  bind (get message "input") (fun input =>
  bind (get message "created") (fun created =>
  let instance :=
    Object_assign
      (Object_assign [("created", now); ("input", input)] [("created", created)])
      [] in
  let field k := default VUndefined (own instance k) in
  bind (when (history self)
          (bind (act (pushLine History
                        [LVal (field "created");
                         (if truthy (field "actor")
                          then LTemplate [LStr " "; LVal (field "actor")]
                          else LStr EmptyString);
                         LStr ": "; LVal (field "input")]))
             (fun _ => act (setScrollPerc History 100))))
    (fun _ => when (screen self) (act screen_render)))).

(** The body of the loop of [handler], lines 353-370. *)
Definition handle_instruction (self : State) (now : JSValue)
    (instruction : JSValue) : Run unit :=
  bind (get instruction "path") (fun path =>
  match path with
  | VString text =>
      let segment := split "/" text !! 1%nat in
      if from_option (String.eqb "messages") false segment then
        if history self then
          bind (get instruction "value") (fun value =>
          _appendMessage self now value)
        else ret tt
      else if from_option (String.eqb "peers") false segment then
        act (console_log [LStr "received unhandled peer notification:";
                          LVal instruction])
      else ret tt
  | _ => raise (TypeError "instruction.path.split is not a function")
  end).

(** lib/cli.js, lines 349-372: [msg] is the array of instructions. *)
Fixpoint handler (self : State) (now : JSValue) (msg : list JSValue) : Run unit :=
  match msg with
  | [] => ret tt
  | instruction :: rest =>
      bind (handle_instruction self now instruction) (fun _ =>
      handler self now rest)
  end.

(** The byte length of the white space or line terminator character a
    text (as UTF-8 bytes) starts with, 0 when it starts with none. *)
Definition space_at_front (l : list Z) : nat :=
  match l with
  | a :: rest =>
      if (Z.leb 9 a && Z.leb a 13) || Z.eqb a 32 then 1%nat
      else
        match rest with
        | b :: rest' =>
            if Z.eqb a 0xC2 && Z.eqb b 0xA0 then 2%nat
            else
              match rest' with
              | c :: _ =>
                  if Z.eqb a 0xE1 && Z.eqb b 0x9A && Z.eqb c 0x80 then 3%nat
                  else if Z.eqb a 0xE2 && Z.eqb b 0x80
                          && ((Z.leb 0x80 c && Z.leb c 0x8A) || Z.eqb c 0xA8
                              || Z.eqb c 0xA9 || Z.eqb c 0xAF) then 3%nat
                  else if Z.eqb a 0xE2 && Z.eqb b 0x81 && Z.eqb c 0x9F then 3%nat
                  else if Z.eqb a 0xE3 && Z.eqb b 0x80 && Z.eqb c 0x80 then 3%nat
                  else if Z.eqb a 0xEF && Z.eqb b 0xBB && Z.eqb c 0xBF then 3%nat
                  else 0%nat
              | [] => 0%nat
              end
        | [] => 0%nat
        end
  | [] => 0%nat
  end.

(** The same for the character a text ends with, on the reversed bytes. *)
Definition space_at_back (reversed : list Z) : nat :=
  match reversed with
  | a :: rest =>
      if (Z.leb 9 a && Z.leb a 13) || Z.eqb a 32 then 1%nat
      else
        match rest with
        | b :: rest' =>
            if space_at_front [b; a] =? 2 then 2%nat
            else
              match rest' with
              | c :: _ => if space_at_front [c; b; a] =? 3 then 3%nat else 0%nat
              | [] => 0%nat
              end
        | [] => 0%nat
        end
  | [] => 0%nat
  end%nat.

Fixpoint strip (measure : list Z -> nat) (fuel : nat) (l : list Z) : list Z :=
  match fuel with
  | O => l
  | S fuel' =>
      match measure l with
      | O => l
      | n => strip measure fuel' (drop n l)
      end
  end.

Definition bytes_of (s : string) : list Z :=
  map (fun c => Z.of_nat (nat_of_ascii c)) (list_ascii_of_string s).

Definition text_of (l : list Z) : string :=
  string_of_list_ascii (map (fun b => ascii_of_nat (Z.to_nat b)) l).

(** [s.trim()] *)
Definition trim (s : string) : string :=
  let front := strip space_at_front (String.length s) (bytes_of s) in
  let back := strip space_at_back (String.length s) (rev front) in
  text_of (rev back).

(** [s.charAt(0) === '/'] *)
Definition starts_with_slash (s : string) : bool :=
  match s with String c _ => Ascii.eqb c "/" | EmptyString => false end.

(** [s.substring(1)], for a text that starts with an ASCII character. *)
Definition substring1 (s : string) : string :=
  match s with String _ rest => rest | EmptyString => EmptyString end.

(** The [submit] listener of the form, lines 218-247. [input] is
    [data.input], [created] is [now.toISOString()]. *)
Definition on_submit (self : State) (created : string) (input : string)
    : Run unit :=
  bind
    (if negb (is_empty_string input) && starts_with_slash input then
       let parts := split " " (trim input) in
       let first := default EmptyString (parts !! 0%nat) in
       let command := substring1 first in
       if String.eqb command "help" then
         act (self_log [LStr "Available commands:"; LStr "/help"; LStr "/test";
                        LStr "/peers"])
       else if String.eqb command "test" then act (self_log [LStr "test!"])
       else if String.eqb command "peers" then
         act (self_log [LStr "peers:"; LVal (peers self)])
       else act (self_log [LStr "Unknown command:"; LStr first])
     else if oracle self then
       act (oracle_POST "/messages"
              (VObject [("created", VString created); ("input", VString input)]))
     else raise (TypeError "Cannot read properties of undefined (reading '_POST')"))
    (fun _ =>
     bind (act form_reset) (fun _ => act screen_render)).

Definition is_post (u : UI) : bool :=
  match u with oracle_POST _ _ => true | _ => false end.

Definition is_self_log (u : UI) : bool :=
  match u with self_log _ => true | _ => false end.

Definition is_history_line (u : UI) : bool :=
  match u with pushLine History _ => true | _ => false end.

(** The history line of a message object. *)
Definition history_line (props : list (string * JSValue)) : UI :=
  pushLine History
    [LVal (default VUndefined (own props "created")); LStr EmptyString;
     LStr ": "; LVal (default VUndefined (own props "input"))].

(** Whether an instruction is for the message collection: an object whose
    [path] is a text with [messages] as its second segment. *)
Definition for_messages (instruction : JSValue) : bool :=
  match instruction with
  | VObject props =>
      match own props "path" with
      | Some (VString text) =>
          from_option (String.eqb "messages") false (split "/" text !! 1%nat)
      | _ => false
      end
  | _ => false
  end.

(** An instruction [{path, value}] with a text for a path and an object for
    a value. *)
Definition well_formed (instruction : JSValue) : bool :=
  match instruction with
  | VObject props =>
      match own props "path", own props "value" with
      | Some (VString _), Some (VObject _) => true
      | _, _ => false
      end
  | _ => false
  end.

Definition value_props (instruction : JSValue) : list (string * JSValue) :=
  match instruction with
  | VObject props =>
      match own props "value" with
      | Some (VObject value) => value
      | _ => []
      end
  | _ => []
  end.

End CLI.

(* ===================================================================== *)
(** ** Facts about traces *)
(* ===================================================================== *)

Lemma writes_app (t u : list Effect) : writes (t ++ u) = writes t ++ writes u.
Proof. apply List.filter_app. Qed.

Lemma writes_to_app (r : SocketRef) (t u : list Effect) :
  writes_to r (t ++ u) = writes_to r t ++ writes_to r u.
Proof. apply List.filter_app. Qed.

Lemma destroys_app (t u : list Effect) : destroys (t ++ u) = destroys t ++ destroys u.
Proof. apply List.filter_app. Qed.

Lemma emitted_app (t u : list Effect) : emitted (t ++ u) = emitted t ++ emitted u.
Proof. apply List.filter_app. Qed.

(** Rewrites the observations of an extended trace. *)
Ltac observe :=
  rewrite ?writes_app, ?writes_to_app, ?destroys_app, ?emitted_app;
  cbn; rewrite ?app_nil_r.

(* ===================================================================== *)
(** ** Properties of the dispatcher *)
(* ===================================================================== *)

(** Unfolds the monad and the primitive actions. *)
Ltac run :=
  unfold mbind, M_bind, mret, M_ret, throw, try_catch, get_self, set_self,
    set_sockets, effect, log, debug, emit, socket_write, socket_destroy,
    socket_on in *;
  cbn [self sockets trace] in *.

Lemma world_eta (w : World) :
  {| self := self w; sockets := sockets w; trace := trace w |} = w.
Proof. destruct w; reflexivity. Qed.

Section Dispatch.

Variable fromRaw : Buffer -> Decoded.
Variable asRaw : OutMessage -> Buffer.
Variable JSON_parse : string -> option JSValue.
Variable sign_hex : string -> string.

(** A successfully decoded chunk reaches the dispatcher, and the reply, if
    any, is written to the same socket. *)
Lemma data_listener_decoded (this : SocketRef) (data : Buffer) (m : Message)
    (w w' : World) (resp : Response) :
  fromRaw data = DecodeOk m ->
  _handleMessage JSON_parse sign_hex (Some m) w = Returned resp w' ->
  dialed_data_listener fromRaw asRaw JSON_parse sign_hex this data w =
    match resp with
    | RMessage out =>
        Returned tt {| self := self w'; sockets := sockets w';
                       trace := trace w' ++ [SocketWrite this (asRaw out)] |}
    | _ => Returned tt w'
    end
  /\ accepted_data_listener fromRaw asRaw JSON_parse sign_hex this data w =
       dialed_data_listener fromRaw asRaw JSON_parse sign_hex this data w.
Proof.
  intros Hdec Hh. split; [|reflexivity].
  unfold dialed_data_listener, _parseMessage. rewrite Hdec. run.
  rewrite Hh. simpl. destruct resp; reflexivity.
Qed.

(** C3. A PING carrying correlation id X is answered by exactly one
    message, of type PONG, built from X itself; the data listener writes
    that reply, and nothing else, to the socket the PING arrived on. *)
Theorem ping_yields_one_pong (m : Message) (w : World) :
  msg_type m = P2P_PING ->
  let pong := Message_fromVector P2P_PONG (msg_id m) in
  exists w',
    _handleMessage JSON_parse sign_hex (Some m) w = Returned (RMessage pong) w'
    /\ out_type pong = P2P_PONG /\ out_data pong = msg_id m
    /\ self w' = self w /\ sockets w' = sockets w
    /\ writes (trace w') = writes (trace w)
    /\ forall this data, fromRaw data = DecodeOk m ->
         exists w'',
           dialed_data_listener fromRaw asRaw JSON_parse sign_hex this data w
             = Returned tt w''
           /\ accepted_data_listener fromRaw asRaw JSON_parse sign_hex this data w
             = Returned tt w''
           /\ writes (trace w'') = writes (trace w) ++ [SocketWrite this (asRaw pong)].
Proof.
  intros Hty pong.
  assert (Hrun : _handleMessage JSON_parse sign_hex (Some m) w =
    Returned (RMessage pong)
      {| self := self w; sockets := sockets w;
         trace := trace w
           ++ [Log [LTemplate [LStr "type was PING ("; LVal (msg_id m);
                               LStr "), sending PONG:"];
                    LMsg pong]] |}).
  { unfold _handleMessage. rewrite Hty. reflexivity. }
  eexists. split; [exact Hrun|].
  cbn [self sockets trace]. repeat split.
  - now observe.
  - intros this data Hdec.
    destruct (data_listener_decoded this data m w _ _ Hdec Hrun) as [Hd Ha].
    eexists. split; [exact Hd|]. split; [rewrite Ha; exact Hd|].
    cbn [trace]. now observe.
Qed.

(** C4. An IDENT_REQUEST, whatever it carries, is answered by exactly one
    message, of type IDENT_RESPONSE, whose payload is the local peer's own
    id; the data listener writes that reply, and nothing else. *)
Theorem ident_request_yields_own_id (m : Message) (w : World) :
  msg_type m = P2P_IDENT_REQUEST ->
  let reply := Message_fromVector P2P_IDENT_RESPONSE (VString (peer_id (self w))) in
  _handleMessage JSON_parse sign_hex (Some m) w = Returned (RMessage reply) w
  /\ out_type reply = P2P_IDENT_RESPONSE
  /\ out_data reply = VString (peer_id (self w))
  /\ forall this data, fromRaw data = DecodeOk m ->
       exists w',
         dialed_data_listener fromRaw asRaw JSON_parse sign_hex this data w
           = Returned tt w'
         /\ accepted_data_listener fromRaw asRaw JSON_parse sign_hex this data w
           = Returned tt w'
         /\ self w' = self w /\ sockets w' = sockets w
         /\ trace w' = trace w ++ [SocketWrite this (asRaw reply)].
Proof.
  intros Hty reply.
  assert (Hrun : _handleMessage JSON_parse sign_hex (Some m) w =
                 Returned (RMessage reply) w).
  { unfold _handleMessage. rewrite Hty. reflexivity. }
  split; [exact Hrun|]. repeat split.
  intros this data Hdec.
  destruct (data_listener_decoded this data m w _ _ Hdec Hrun) as [Hd Ha].
  eexists. split; [exact Hd|]. split; [rewrite Ha; exact Hd|]. now cbn.
Qed.

(** C5, as amended. A STATE_CHANGE whose payload parses as JSON to a truthy
    value makes the dispatcher emit exactly one [changes] event, carrying
    the parsed value, and produce no reply: the data listener writes
    nothing. *)
Theorem state_change_truthy_emits_changes (m : Message) (v : JSValue) (w : World) :
  msg_type m = P2P_STATE_CHANGE ->
  JSON_parse (msg_data m) = Some v ->
  truthy v = true ->
  exists w',
    _handleMessage JSON_parse sign_hex (Some m) w = Returned RNull w'
    /\ self w' = self w /\ sockets w' = sockets w
    /\ emitted (trace w') = emitted (trace w) ++ [Emit (ev_changes v)]
    /\ writes (trace w') = writes (trace w)
    /\ forall this data, fromRaw data = DecodeOk m ->
         dialed_data_listener fromRaw asRaw JSON_parse sign_hex this data w
           = Returned tt w'
         /\ accepted_data_listener fromRaw asRaw JSON_parse sign_hex this data w
           = Returned tt w'.
Proof.
  intros Hty Hparse Htruthy.
  assert (Hrun : _handleMessage JSON_parse sign_hex (Some m) w =
    Returned RNull
      {| self := self w; sockets := sockets w;
         trace := (trace w ++ [Log [LStr "type was STATE_CHANGE, change is:";
                                    LVal (VString (msg_data m))]])
                  ++ [Emit (ev_changes v)] |}).
  { unfold _handleMessage. rewrite Hty. run. cbn. rewrite Hparse, Htruthy.
    reflexivity. }
  eexists. split; [exact Hrun|]. cbn [self sockets trace]. repeat split.
  - now observe.
  - now observe.
  - destruct (data_listener_decoded this data m w _ _ H Hrun) as [Hd _].
    exact Hd.
  - destruct (data_listener_decoded this data m w _ _ H Hrun) as [Hd Ha].
    rewrite Ha. exact Hd.
Qed.

(** C6. A STATE_CHANGE whose payload is not valid JSON is logged and
    dropped: no event is emitted, no reply is produced or written, and the
    socket it arrived on is not destroyed. *)
Theorem state_change_invalid_json_dropped (m : Message) (w : World) :
  msg_type m = P2P_STATE_CHANGE ->
  JSON_parse (msg_data m) = None ->
  exists w',
    _handleMessage JSON_parse sign_hex (Some m) w = Returned RFalse w'
    /\ self w' = self w /\ sockets w' = sockets w
    /\ trace w' = trace w
         ++ [Log [LStr "type was STATE_CHANGE, change is:"; LVal (VString (msg_data m))];
             Debug [LStr "Could not parse change:"; LVal (VString (msg_data m))]]
    /\ emitted (trace w') = emitted (trace w)
    /\ writes (trace w') = writes (trace w)
    /\ destroys (trace w') = destroys (trace w)
    /\ forall this data, fromRaw data = DecodeOk m ->
         dialed_data_listener fromRaw asRaw JSON_parse sign_hex this data w
           = Returned tt w'
         /\ accepted_data_listener fromRaw asRaw JSON_parse sign_hex this data w
           = Returned tt w'.
Proof.
  intros Hty Hparse.
  assert (Hrun : _handleMessage JSON_parse sign_hex (Some m) w =
    Returned RFalse
      {| self := self w; sockets := sockets w;
         trace := (trace w ++ [Log [LStr "type was STATE_CHANGE, change is:";
                                    LVal (VString (msg_data m))]])
                  ++ [Debug [LStr "Could not parse change:";
                             LVal (VString (msg_data m))]] |}).
  { unfold _handleMessage. rewrite Hty. run. cbn. rewrite Hparse. reflexivity. }
  eexists. split; [exact Hrun|]. cbn [self sockets trace]. repeat split.
  - now rewrite <- app_assoc.
  - now observe.
  - now observe.
  - now observe.
  - destruct (data_listener_decoded this data m w _ _ H Hrun) as [Hd _].
    exact Hd.
  - destruct (data_listener_decoded this data m w _ _ H Hrun) as [Hd Ha].
    rewrite Ha. exact Hd.
Qed.

(** The runtime hands a chunk arriving on a dialed socket to the listener
    of [_connect], and one arriving on an accepted socket to the listener
    of [_handleConnection]. *)
Lemma socket_data_dialed (r : SocketRef) (data : Buffer) (w : World)
    (s : Socket) (address : string) :
  sockets w !! r = Some s ->
  listeners s = [dialed_error address; dialed_data; dialed_connect address] ->
  socket_data fromRaw asRaw JSON_parse sign_hex r data w =
    dialed_data_listener fromRaw asRaw JSON_parse sign_hex r data w.
Proof.
  intros Hs Hl. unfold socket_data, read_socket. run.
  destruct (sockets w !! r) as [s'|]; [|discriminate].
  injection Hs as ->. rewrite Hl. cbn. run.
  now destruct (dialed_data_listener _ _ _ _ r data w) as [[] ?|].
Qed.

Lemma socket_data_accepted (r : SocketRef) (data : Buffer) (w : World)
    (s : Socket) (address : string) :
  sockets w !! r = Some s ->
  listeners s = [accepted_end address; accepted_data] ->
  socket_data fromRaw asRaw JSON_parse sign_hex r data w =
    accepted_data_listener fromRaw asRaw JSON_parse sign_hex r data w.
Proof.
  intros Hs Hl. unfold socket_data, read_socket. run.
  destruct (sockets w !! r) as [s'|]; [|discriminate].
  injection Hs as ->. rewrite Hl. cbn. run.
  now destruct (accepted_data_listener _ _ _ _ r data w) as [[] ?|].
Qed.

Lemma parseMessage_undecodable (data : Buffer) (w : World) :
  decodes fromRaw data = false ->
  _parseMessage fromRaw data w =
    Returned None {| self := self w; sockets := sockets w;
                     trace := trace w ++ parse_diagnostic fromRaw data |}.
Proof.
  unfold decodes, parse_diagnostic, _parseMessage. run.
  destruct (fromRaw data); intros Hd; try discriminate; cbn.
  - now rewrite app_nil_r, world_eta.
  - reflexivity.
Qed.

(** C1. When the Codec cannot decode the bytes of a data event, on a
    dialed or an accepted socket, the dispatcher is given no message and
    does nothing, the socket is destroyed, and no reply is written. *)
Theorem undecodable_input_destroys_connection (this : SocketRef) (data : Buffer)
    (w : World) :
  decodes fromRaw data = false ->
  exists w',
    dialed_data_listener fromRaw asRaw JSON_parse sign_hex this data w = Returned tt w'
    /\ accepted_data_listener fromRaw asRaw JSON_parse sign_hex this data w = Returned tt w'
    /\ (forall w0, _handleMessage JSON_parse sign_hex None w0 = Returned RFalse w0)
    /\ self w' = self w
    /\ sockets w' = alter (set_destroyed true) this (sockets w)
    /\ (forall s, sockets w !! this = Some s ->
          sockets w' !! this = Some (set_destroyed true s))
    /\ trace w' = trace w ++ parse_diagnostic fromRaw data ++ [SocketDestroy this]
    /\ writes (trace w') = writes (trace w)
    /\ emitted (trace w') = emitted (trace w)
    /\ destroys (trace w') = destroys (trace w) ++ [SocketDestroy this].
Proof.
  intros Hd.
  assert (Hrun :
    dialed_data_listener fromRaw asRaw JSON_parse sign_hex this data w =
    Returned tt
      {| self := self w;
         sockets := alter (set_destroyed true) this (sockets w);
         trace := (trace w ++ parse_diagnostic fromRaw data) ++ [SocketDestroy this] |}).
  { unfold dialed_data_listener. run.
    rewrite (parseMessage_undecodable data w Hd). reflexivity. }
  eexists. split; [exact Hrun|]. split; [exact Hrun|].
  cbn [self sockets trace].
  assert (Hquiet : forall t, writes (t ++ parse_diagnostic fromRaw data) = writes t
                          /\ emitted (t ++ parse_diagnostic fromRaw data) = emitted t
                          /\ destroys (t ++ parse_diagnostic fromRaw data) = destroys t).
  { intros t. unfold parse_diagnostic. destruct (fromRaw data); observe; auto. }
  destruct (Hquiet (trace w)) as (Hw & He & Hx).
  repeat split.
  - intros s Hs. rewrite list_lookup_alter_eq, Hs. reflexivity.
  - now rewrite app_assoc.
  - rewrite writes_app, Hw. cbn. apply app_nil_r.
  - rewrite emitted_app, He. cbn. apply app_nil_r.
  - rewrite destroys_app, Hx. reflexivity.
Qed.

Lemma assign_fresh {V} (t : Table V) (k : string) (v : V) :
  own t k = None -> assign t k v = t ++ [(k, v)].
Proof.
  induction t as [|[k' v'] t IH]; cbn; [reflexivity|].
  destruct (String.eqb k' k); [discriminate|].
  intros H. now rewrite IH.
Qed.

Lemma not_get_own {V} (t : Table V) (k : string) :
  not_get t k = true -> own t k = None.
Proof. unfold not_get. destruct (own t k); [discriminate|reflexivity]. Qed.

Lemma with_peers_same (p : Peer) : with_peers (peers p) p = p.
Proof. destruct p; reflexivity. Qed.

(** C10. Dispatch never touches the connection table, the sockets, or the
    peer's id, address and port.  A message of any type other than
    IDENT_RESPONSE leaves the whole Peer as it was; an IDENT_RESPONSE
    changes at most the peers table, by appending one entry under a key
    that was absent. *)
Theorem handleMessage_frame (message : option Message) (w : World) :
  exists resp w',
    _handleMessage JSON_parse sign_hex message w = Returned resp w'
    /\ connections (self w') = connections (self w)
    /\ peer_id (self w') = peer_id (self w)
    /\ address (self w') = address (self w)
    /\ port (self w') = port (self w)
    /\ sockets w' = sockets w
    /\ self w' = with_peers (peers (self w')) (self w)
    /\ (match message with
        | Some m => msg_type m <> P2P_IDENT_RESPONSE
        | None => True
        end -> self w' = self w)
    /\ (peers (self w') = peers (self w)
        \/ exists k, own (peers (self w)) k = None
                     /\ peers (self w') = peers (self w) ++ [(k, {| remote_id := k |})]).
Proof.
  assert (Hsame : forall (resp : Response) w0,
    self w0 = self w -> sockets w0 = sockets w ->
    exists resp' w',
      Returned resp w0 = Returned resp' w'
      /\ connections (self w') = connections (self w)
      /\ peer_id (self w') = peer_id (self w)
      /\ address (self w') = address (self w)
      /\ port (self w') = port (self w)
      /\ sockets w' = sockets w
      /\ self w' = with_peers (peers (self w')) (self w)
      /\ (match message with
          | Some m => msg_type m <> P2P_IDENT_RESPONSE
          | None => True
          end -> self w' = self w)
      /\ (peers (self w') = peers (self w)
          \/ exists k, own (peers (self w)) k = None
                       /\ peers (self w') = peers (self w) ++ [(k, {| remote_id := k |})])).
  { intros resp w0 Hself Hsock. do 2 eexists. split; [reflexivity|].
    rewrite Hself, Hsock, with_peers_same. repeat split; auto. }
  destruct message as [m|]; cbn; [|now apply Hsame].
  unfold _handleMessage. run.
  destruct (Z.eqb_spec (msg_type m) P2P_IDENT_REQUEST) as [|_];
    [now apply Hsame|].
  destruct (Z.eqb_spec (msg_type m) P2P_IDENT_RESPONSE) as [Hresp|_].
  - destruct (not_get (peers (self w)) (msg_data m)) eqn:Hnew; cbn;
      [|now apply Hsame].
    do 2 eexists. split; [reflexivity|]. cbn. repeat split.
    + intros Hne. now destruct Hne.
    + right. exists (msg_data m). split; [now apply not_get_own|].
      apply assign_fresh. now apply not_get_own.
  - destruct (Z.eqb (msg_type m) P2P_STATE_CHANGE).
    { cbn. destruct (JSON_parse (msg_data m)) as [v|]; cbn;
        [destruct (truthy v); cbn|]; now apply Hsame. }
    destruct (Z.eqb (msg_type m) P2P_ROOT); [cbn; now apply Hsame|].
    destruct (Z.eqb (msg_type m) P2P_PING); [cbn; now apply Hsame|].
    destruct (Z.eqb (msg_type m) P2P_INSTRUCTION); [|cbn; now apply Hsame].
    unfold handle_instruction. run.
    destruct (from_option _ _ _); cbn; now apply Hsame.
Qed.

End Dispatch.

(* ===================================================================== *)
(** ** Properties of the connection table *)
(* ===================================================================== *)

Lemma own_includes {V} (t : Table V) (k : string) :
  includes (Object_keys t) k = match own t k with Some _ => true | None => false end.
Proof.
  induction t as [|[k' v'] t IH]; cbn; [reflexivity|].
  rewrite (String.eqb_sym k k'). destruct (String.eqb k' k); cbn; auto.
Qed.

Lemma own_assign_eq {V} (t : Table V) (k : string) (v : V) :
  own (assign t k v) k = Some v.
Proof.
  induction t as [|[k' v'] t IH]; cbn.
  - now rewrite String.eqb_refl.
  - destruct (String.eqb k' k) eqn:E; cbn.
    + now rewrite String.eqb_refl.
    + now rewrite E.
Qed.

Lemma own_In {V} (t : Table V) (k : string) (v : V) :
  NoDup (Object_keys t) -> In (k, v) t -> own t k = Some v.
Proof.
  induction t as [|[k' v'] t IH]; cbn; [tauto|].
  intros Hnd [Heq|Hin].
  - inversion Heq; subst. now rewrite String.eqb_refl.
  - inversion Hnd as [|? ? Hnotin Hnd']; subst.
    destruct (String.eqb_spec k' k) as [->|_].
    + exfalso. apply Hnotin. apply list_elem_of_In.
      change k with (fst (k, v)). now apply in_map.
    + now apply IH.
Qed.

Lemma own_None_keys {V} (t : Table V) (k : string) :
  own t k = None -> ~ In k (Object_keys t).
Proof.
  induction t as [|[k' v'] t IH]; cbn; [tauto|].
  destruct (String.eqb_spec k' k) as [->|Hne]; [discriminate|].
  intros Hown [Heq|Hin]; [contradiction|]. now apply IH.
Qed.

Lemma own_refs (t : Table nat) (k : string) (r : nat) :
  own t k = Some r -> In r (table_refs t).
Proof.
  induction t as [|[k' v'] t IH]; cbn; [discriminate|].
  destruct (String.eqb k' k).
  - intros [= ->]. now left.
  - intros H. right. now apply IH.
Qed.

Lemma assign_keys {V} (t : Table V) (k : string) (v : V) :
  Object_keys (assign t k v) =
    match own t k with
    | Some _ => Object_keys t
    | None => Object_keys t ++ [k]
    end.
Proof.
  unfold Object_keys.
  induction t as [|[k' v'] t IH]; cbn; [reflexivity|].
  destruct (String.eqb_spec k' k) as [->|Hne]; cbn; [reflexivity|].
  rewrite IH. now destruct (own t k).
Qed.

Lemma assign_refs_In (t : Table nat) (k : string) (v x : nat) :
  In x (table_refs (assign t k v)) -> x = v \/ In x (table_refs t).
Proof.
  induction t as [|[k' v'] t IH]; cbn.
  - intros [->|[]]. now left.
  - destruct (String.eqb k' k); cbn.
    + intros [->|H]; auto.
    + intros [->|H]; auto. destruct (IH H); auto.
Qed.

Lemma assign_refs_NoDup (t : Table nat) (k : string) (v : nat) :
  NoDup (table_refs t) -> ~ In v (table_refs t) ->
  NoDup (table_refs (assign t k v)).
Proof.
  induction t as [|[k' v'] t IH]; cbn; intros Hnd Hv.
  - repeat constructor. intros H. inversion H.
  - inversion Hnd as [|? ? Hnotin Hnd']; subst.
    rewrite list_elem_of_In in Hnotin.
    destruct (String.eqb k' k); cbn; constructor; rewrite ?list_elem_of_In; auto.
    intros Hin. destruct (assign_refs_In _ _ _ _ Hin) as [->|Hin']; auto.
Qed.

Lemma assign_keys_NoDup {V} (t : Table V) (k : string) (v : V) :
  NoDup (Object_keys t) -> NoDup (Object_keys (assign t k v)).
Proof.
  intros Hnd. rewrite assign_keys. destruct (own t k) eqn:E; [exact Hnd|].
  apply NoDup_app. split; [exact Hnd|]. split.
  - intros x Hx Hk. apply list_elem_of_In in Hx.
    apply list_elem_of_In in Hk. destruct Hk as [->|[]].
    now apply (own_None_keys _ _ E).
  - repeat constructor. intros H. inversion H.
Qed.

Lemma refs_below_fresh (t : Table nat) (n : nat) :
  Forall (fun r => r < n)%nat (table_refs t) -> ~ In n (table_refs t).
Proof.
  intros Hall Hin. rewrite List.Forall_forall in Hall.
  specialize (Hall n Hin). lia.
Qed.

Lemma alter_last {A} (f : A -> A) (l : list A) (x : A) :
  alter f (length l) (l ++ [x]) = l ++ [f x].
Proof.
  rewrite <- (Nat.add_0_r (length l)). now rewrite alter_app_r.
Qed.

Section Connections.

Variable asRaw : OutMessage -> Buffer.
Variable JSON_stringify : JSValue -> JSValue.
Variable connect_error : string -> string -> option Error.

Lemma connect_known (address : string) (r : SocketRef) (w : World) :
  length (split ":" address) = 2%nat ->
  own (connections (self w)) address = Some r ->
  _connect connect_error address w = Returned (Connection r) w.
Proof.
  intros Hparts Hown. unfold _connect. run.
  rewrite Hparts. cbn. rewrite own_includes, Hown. reflexivity.
Qed.

Lemma connect_invalid (address : string) (w : World) :
  length (split ":" address) <> 2%nat ->
  _connect connect_error address w =
    Returned ResultOfDebug
      {| self := self w; sockets := sockets w;
         trace := trace w ++ [Debug [LStr "Invalid address:"; LStr address]] |}.
Proof.
  intros Hparts. unfold _connect. run.
  destruct (Nat.eqb_spec (length (split ":" address)) 2) as [|_]; [contradiction|].
  reflexivity.
Qed.

(** What [_connect] does for an address with two parts that is not yet in
    the table. *)
Lemma connect_new_address (address : string) (w : World) :
  length (split ":" address) = 2%nat ->
  own (connections (self w)) address = None ->
  let r := length (sockets w) in
  let port := default EmptyString (split ":" address !! 1%nat) in
  let host := default EmptyString (split ":" address !! 0%nat) in
  _connect connect_error address w =
    Returned (Connection r)
      {| self := with_connections (connections (self w) ++ [(address, r)]) (self w);
         sockets := sockets w ++ [dialed_socket address];
         trace := trace w
           ++ [NewSocket r; SocketOn r (dialed_error address); SocketOn r dialed_data]
           ++ [match connect_error port host with
               | None => SocketConnect r port host
               | Some E => Log [LStr "[PEER]"; LStr "failed to connect:"; LErr E]
               end] |}.
Proof.
  intros Hparts Hown r port host. unfold _connect. run.
  rewrite Hparts. cbn. rewrite own_includes, Hown.
  unfold new_Socket, connection_at, socket_connect. run. cbn.
  rewrite own_assign_eq. cbn. rewrite own_assign_eq. cbn.
  rewrite own_assign_eq. cbn.
  rewrite !alter_last. fold port host.
  destruct (connect_error port host); cbn; rewrite own_assign_eq; cbn;
    rewrite (assign_fresh _ _ _ Hown); unfold dialed_socket, r;
    rewrite <- !app_assoc; reflexivity.
Qed.

(** The turns of the loop of [broadcast] over entries of the table. *)
Lemma for_in_broadcast (msg : JSValue) (l : Table nat) (w : World) :
  (forall k r, In (k, r) l -> own (connections (self w)) k = Some r) ->
  Forall (fun r => r < length (sockets w))%nat (table_refs l) ->
  for_in (Object_keys l) (broadcast_step asRaw msg) w =
    Returned tt
      {| self := self w; sockets := sockets w;
         trace := trace w ++
           map (fun r => SocketWrite r (asRaw (Message_fromVector P2P_STATE_CHANGE msg)))
               (List.filter (eligible (sockets w)) (table_refs l)) |}.
Proof.
  revert w. induction l as [|[k r] l IH]; intros w Hown Hvalid.
  - cbn. now rewrite app_nil_r, world_eta.
  - cbn [Object_keys map fst for_in]. run.
    unfold broadcast_step at 1, connection_at, read_socket. run.
    rewrite (Hown k r (or_introl eq_refl)).
    inversion Hvalid as [|? ? Hr Hvalid']; subst.
    destruct (sockets w !! r) as [s|] eqn:Hs;
      [|apply lookup_ge_None in Hs; lia].
    assert (Hel : eligible (sockets w) r
                  = negb (connecting s) && negb (_hadError s)).
    { unfold eligible. now rewrite Hs. }
    unfold table_refs in *. cbn [map snd List.filter]. rewrite Hel.
    fold (Object_keys l).
    destruct (negb (connecting s) && negb (_hadError s)); cbn.
    + rewrite IH; cbn; auto.
      * now rewrite <- app_assoc.
      * intros k' r' Hin. apply Hown. now right.
    + apply IH; auto.
      intros k' r' Hin. apply Hown. now right.
Qed.

Lemma writes_to_map (frame : Buffer) (r : nat) (live : list nat) :
  NoDup live ->
  writes_to r (map (fun r' => SocketWrite r' frame) live) =
    if existsb (Nat.eqb r) live then [SocketWrite r frame] else [].
Proof.
  induction live as [|x live IH]; cbn; [reflexivity|].
  intros Hnd. inversion Hnd as [|? ? Hnotin Hnd']; subst.
  rewrite list_elem_of_In in Hnotin.
  destruct (Nat.eqb_spec r x) as [->|Hne]; cbn.
  - fold (writes_to x (map (fun r' => SocketWrite r' frame) live)).
    rewrite (IH Hnd').
    destruct (existsb (Nat.eqb x) live) eqn:E; [|reflexivity].
    exfalso. apply Hnotin. apply existsb_exists in E.
    destruct E as (y & Hy & Heq). apply Nat.eqb_eq in Heq. now subst.
  - now apply IH.
Qed.

(** C7, as amended. [broadcast(p)] wraps [p] itself when it is a string
    and [JSON.stringify(p)] otherwise in a STATE_CHANGE message, and writes
    that one frame to every connection of the table that is neither
    connecting nor errored, in table order.  Every other socket (one held
    by a connecting or errored entry, or one not in the table at the time
    of the call) is written nothing, and the Peer is left unchanged. *)
Theorem broadcast_writes_one_frame_per_live_connection (p : JSValue) (w : World) :
  connections_ok w ->
  let frame := broadcast_frame asRaw JSON_stringify p in
  let live :=
    List.filter (eligible (sockets w)) (table_refs (connections (self w))) in
  exists w',
    broadcast asRaw JSON_stringify p w = Returned tt w'
    /\ self w' = self w /\ sockets w' = sockets w
    /\ trace w' = trace w ++ map (fun r => SocketWrite r frame) live
    /\ (forall k r, own (connections (self w)) k = Some r ->
          eligible (sockets w) r = true ->
          writes_to r (trace w') = writes_to r (trace w) ++ [SocketWrite r frame])
    /\ (forall r, ~ In r (table_refs (connections (self w)))
                  \/ eligible (sockets w) r = false ->
          writes_to r (trace w') = writes_to r (trace w)).
Proof.
  intros (Hkeys & Hrefs & Hvalid) frame live.
  assert (Hrun : broadcast asRaw JSON_stringify p w =
    Returned tt {| self := self w; sockets := sockets w;
                   trace := trace w ++ map (fun r => SocketWrite r frame) live |}).
  { unfold broadcast. run.
    rewrite for_in_broadcast; auto.
    - unfold frame, live, broadcast_frame.
      now destruct (typeof_is_string p).
    - intros k r Hin. now apply own_In. }
  assert (Hlive : NoDup live).
  { unfold live. apply NoDup_ListNoDup. apply List.NoDup_filter.
    now apply NoDup_ListNoDup. }
  eexists. split; [exact Hrun|]. cbn [self sockets trace].
  repeat split.
  - intros k r Hown Hel. rewrite writes_to_app, writes_to_map by exact Hlive.
    replace (existsb (Nat.eqb r) live) with true; [reflexivity|].
    symmetry. apply existsb_exists. exists r. split; [|apply Nat.eqb_refl].
    unfold live. apply List.filter_In. split; [|exact Hel].
    now apply own_refs with k.
  - intros r Hr. rewrite writes_to_app, writes_to_map by exact Hlive.
    replace (existsb (Nat.eqb r) live) with false; [apply app_nil_r|].
    symmetry. apply not_true_is_false. intros E.
    apply existsb_exists in E. destruct E as (y & Hy & Heq).
    apply Nat.eqb_eq in Heq. subst y. unfold live in Hy.
    apply List.filter_In in Hy. destruct Hy as [Hin Hel].
    destruct Hr as [Hr|Hr]; [contradiction|congruence].
Qed.

(** What accepting a transport from [ra:rp] does. *)
Lemma server_connection_run (ra rp : string) (w : World) :
  let r := length (sockets w) in
  let address := join2 ":" (Some ra) (Some rp) in
  server_connection ra rp w =
    Returned tt
      {| self := with_connections (assign (connections (self w)) address r) (self w);
         sockets := sockets w ++ [accepted_socket ra rp];
         trace := trace w
           ++ [NewSocket r; Log [LStr "incoming connection:"; LStr address];
               Emit (ev_connection address "connected" false);
               SocketOn r (accepted_end address); SocketOn r accepted_data] |}.
Proof.
  intros r address. unfold server_connection, _handleConnection, read_socket. run.
  rewrite list_lookup_middle by reflexivity. run. cbn.
  rewrite !alter_last. unfold accepted_socket, r, address.
  rewrite <- !app_assoc. reflexivity.
Qed.

(** The table of a new peer is well formed, and dialing and accepting keep
    it so. *)
Lemma connections_ok_new (p : Peer) :
  connections p = [] -> connections_ok (new_World p).
Proof.
  intros Hp. unfold connections_ok. cbn. rewrite Hp. cbn.
  repeat split; constructor.
Qed.

Lemma connections_ok_grow (p : Peer) (ss : list Socket) (t t' : list Effect)
    (k : string) (x : Socket) :
  connections_ok {| self := p; sockets := ss; trace := t |} ->
  connections_ok
    {| self := with_connections (assign (connections p) k (length ss)) p;
       sockets := ss ++ [x]; trace := t' |}.
Proof.
  unfold connections_ok. cbn. intros (Hkeys & Hrefs & Hvalid).
  split; [now apply assign_keys_NoDup|]. split.
  - apply assign_refs_NoDup; [exact Hrefs|]. now apply refs_below_fresh.
  - rewrite List.Forall_forall in *. intros r Hin. rewrite length_app. cbn.
    destruct (assign_refs_In _ _ _ _ Hin) as [->|Hold]; [lia|].
    specialize (Hvalid r Hold). lia.
Qed.

Lemma server_connection_preserves_ok (ra rp : string) (w : World) :
  connections_ok w -> connections_ok (world_of (server_connection ra rp w)).
Proof.
  intros Hok. rewrite server_connection_run. cbn [world_of].
  apply connections_ok_grow with (t := trace w). now rewrite world_eta.
Qed.

Lemma connect_preserves_ok (address : string) (w : World) :
  connections_ok w -> connections_ok (world_of (_connect connect_error address w)).
Proof.
  intros Hok.
  destruct (Nat.eq_dec (length (split ":" address)) 2%nat) as [Hparts|Hparts].
  - destruct (own (connections (self w)) address) as [r|] eqn:Hown.
    + now rewrite (connect_known _ _ _ Hparts Hown).
    + rewrite (connect_new_address _ _ Hparts Hown). cbn [world_of].
      rewrite <- (assign_fresh _ _ _ Hown).
      apply connections_ok_grow with (t := trace w). now rewrite world_eta.
  - rewrite (connect_invalid _ w Hparts). cbn [world_of]. exact Hok.
Qed.

(** C2, as amended. When the address splits into exactly two parts and is
    already a key of the connection table, [_connect] returns the entry
    stored under it and changes nothing: no socket, no table entry, no
    trace.  Dialing the same two-part address a second time therefore
    returns the handle of the first call and changes nothing. *)
Theorem connect_known_address_returns_existing (address : string) :
  length (split ":" address) = 2%nat ->
  (forall r w, own (connections (self w)) address = Some r ->
     _connect connect_error address w = Returned (Connection r) w)
  /\ (forall w res w1, _connect connect_error address w = Returned res w1 ->
        _connect connect_error address w1 = Returned res w1).
Proof.
  intros Hparts. split.
  - intros r w. now apply connect_known.
  - intros w res w1.
    destruct (own (connections (self w)) address) as [r|] eqn:Hown.
    + rewrite (connect_known _ _ _ Hparts Hown). intros [= <- <-].
      now apply connect_known.
    + rewrite (connect_new_address _ _ Hparts Hown). intros [= <- <-].
      apply connect_known; [exact Hparts|]. cbn.
      rewrite <- (assign_fresh _ _ _ Hown). apply own_assign_eq.
Qed.

(** C8, as amended. When splitting the address on ':' does not yield
    exactly two parts, [_connect] logs the invalid-address diagnostic and
    returns: the Peer and the socket store are unchanged. *)
Theorem connect_invalid_address_no_effect (address : string) (w : World) :
  length (split ":" address) <> 2%nat ->
  exists w',
    _connect connect_error address w = Returned ResultOfDebug w'
    /\ self w' = self w
    /\ sockets w' = sockets w
    /\ trace w' = trace w ++ [Debug [LStr "Invalid address:"; LStr address]].
Proof.
  intros Hparts. eexists. split; [now apply connect_invalid|]. now cbn.
Qed.

(** C9. A peer that was never started has no server; [stop] then raises a
    TypeError to its caller instead of logging and continuing. *)
Theorem stop_before_start_throws (cfg : Config) (id : string) (st : JSValue) :
  let w := new_World (new_Peer cfg id st) in
  exists e, stop w = Thrown e w /\ err_name e = "TypeError".
Proof. intros w. eexists. split; reflexivity. Qed.


End Connections.

(* ===================================================================== *)
(** ** The connection table along the runs of a peer *)
(* ===================================================================== *)

Lemma keeps_ret {A} (a : A) : keeps_table (mret a : M A).
Proof. intros w. now cbn. Qed.

Lemma keeps_throw {A} (e : Error) : keeps_table (throw e : M A).
Proof. intros w. now cbn. Qed.

Lemma keeps_bind {A B} (c : M A) (f : A -> M B) :
  keeps_table c -> (forall a, keeps_table (f a)) -> keeps_table (c ≫= f).
Proof.
  intros Hc Hf w. specialize (Hc w). unfold mbind, M_bind.
  destruct (c w) as [a w'|e w']; cbn in *; [|exact Hc].
  destruct (Hf a w') as [H1 H2]. destruct Hc as [H3 H4]. split; congruence.
Qed.

Lemma keeps_try_catch {A} (c : M A) (h : Error -> M A) :
  keeps_table c -> (forall e, keeps_table (h e)) -> keeps_table (try_catch c h).
Proof.
  intros Hc Hh w. specialize (Hc w). unfold try_catch.
  destruct (c w) as [a w'|e w']; cbn in *; [exact Hc|].
  destruct (Hh e w') as [H1 H2]. destruct Hc as [H3 H4]. split; congruence.
Qed.

Lemma keeps_effect (e : Effect) : keeps_table (effect e).
Proof. intros w. now cbn. Qed.

Lemma keeps_get_self : keeps_table get_self.
Proof. intros w. now cbn. Qed.

Lemma keeps_read_socket (r : SocketRef) : keeps_table (read_socket r).
Proof. intros w. unfold read_socket. now destruct (sockets w !! r). Qed.

Lemma keeps_alter (f : Socket -> Socket) (r : SocketRef) :
  keeps_table (set_sockets (alter f r)).
Proof. intros w. cbn. split; [reflexivity|]. apply length_alter. Qed.

Lemma keeps_set_self (f : Peer -> Peer) :
  (forall p, connections (f p) = connections p) -> keeps_table (set_self f).
Proof. intros Hf w. cbn. now rewrite Hf. Qed.

Lemma keeps_table_ok {A} (c : M A) (w : World) :
  keeps_table c -> connections_ok w -> connections_ok (world_of (c w)).
Proof.
  intros Hc. destruct (Hc w) as [Ht Hs]. unfold connections_ok.
  now rewrite Ht, Hs.
Qed.

Create HintDb keeps.

#[local] Hint Resolve keeps_ret keeps_throw keeps_effect keeps_get_self
  keeps_read_socket keeps_alter : keeps.

(** Walks through a method body. *)
Ltac keeps :=
  repeat first
    [ progress unfold log, debug, emit, socket_on, socket_write, socket_destroy
    | apply keeps_bind; [|intros ?]
    | apply keeps_try_catch; [|intros ?]
    | apply keeps_set_self; intros ?; reflexivity
    | solve [auto with keeps]
    | match goal with
      | |- keeps_table (if ?b then _ else _) => destruct b
      | |- keeps_table (match ?x with _ => _ end) => destruct x
      end ].

Section Runs.

Variable fromRaw : Buffer -> Decoded.
Variable asRaw : OutMessage -> Buffer.
Variable JSON_parse : string -> option JSValue.
Variable JSON_stringify : JSValue -> JSValue.
Variable sign_hex : string -> string.
Variable connect_error : string -> string -> option Error.

Lemma keeps_connection_at (address : string) : keeps_table (connection_at address).
Proof. unfold connection_at. keeps. Qed.

Lemma keeps_parseMessage (data : Buffer) : keeps_table (_parseMessage fromRaw data).
Proof. unfold _parseMessage. keeps. Qed.

Lemma keeps_handleMessage (message : option Message) :
  keeps_table (_handleMessage JSON_parse sign_hex message).
Proof. unfold _handleMessage, handle_instruction. keeps. Qed.

Lemma keeps_dialed_data (this : SocketRef) (data : Buffer) :
  keeps_table (dialed_data_listener fromRaw asRaw JSON_parse sign_hex this data).
Proof.
  unfold dialed_data_listener.
  apply keeps_bind; [apply keeps_parseMessage|intros message].
  apply keeps_bind; [apply keeps_handleMessage|intros response]. keeps.
Qed.

Lemma keeps_accepted_data (this : SocketRef) (data : Buffer) :
  keeps_table (accepted_data_listener fromRaw asRaw JSON_parse sign_hex this data).
Proof.
  unfold accepted_data_listener.
  apply keeps_bind; [apply keeps_parseMessage|intros message].
  apply keeps_bind; [apply keeps_handleMessage|intros response]. keeps.
Qed.

Lemma keeps_dialed_connect (address : string) :
  keeps_table (dialed_connect_listener asRaw address).
Proof.
  unfold dialed_connect_listener. keeps; apply keeps_connection_at.
Qed.

Lemma keeps_emit_data (this : SocketRef) (ls : list Listener) (data : Buffer) :
  keeps_table (emit_data fromRaw asRaw JSON_parse sign_hex this ls data).
Proof.
  induction ls as [|l ls IH]; cbn; [keeps|].
  destruct l; auto; (apply keeps_bind; [|intros ?; exact IH]).
  - apply keeps_dialed_data.
  - apply keeps_accepted_data.
Qed.

Lemma keeps_emit_connect (ls : list Listener) : keeps_table (emit_connect asRaw ls).
Proof.
  induction ls as [|l ls IH]; cbn; [keeps|].
  destruct l; auto. apply keeps_bind; [|intros ?; exact IH].
  apply keeps_dialed_connect.
Qed.

Lemma keeps_emit_error (ls : list Listener) (err : Error) :
  keeps_table (emit_error ls err).
Proof.
  induction ls as [|l ls IH]; cbn; [keeps|].
  destruct l; auto. apply keeps_bind; [|intros ?; exact IH].
  unfold dialed_error_listener. keeps.
Qed.

Lemma keeps_emit_end (ls : list Listener) : keeps_table (emit_end ls).
Proof.
  induction ls as [|l ls IH]; cbn; [keeps|].
  destruct l; auto. apply keeps_bind; [|intros ?; exact IH].
  unfold accepted_end_listener. keeps.
Qed.

Lemma keeps_for_in (keys : list string) (body : string -> M unit) :
  (forall i, keeps_table (body i)) -> keeps_table (for_in keys body).
Proof. intros Hbody. induction keys as [|i keys IH]; cbn; keeps; auto. Qed.

Lemma keeps_broadcast (message : JSValue) :
  keeps_table (broadcast asRaw JSON_stringify message).
Proof.
  unfold broadcast. keeps. apply keeps_for_in. intros i.
  unfold broadcast_step. keeps; apply keeps_connection_at.
Qed.

(** Every action keeps the connection table well formed. *)
Lemma perform_preserves_ok (a : Action) (w : World) :
  connections_ok w ->
  connections_ok
    (world_of (perform fromRaw asRaw JSON_parse JSON_stringify sign_hex
                 connect_error a w)).
Proof.
  intros Hok. destruct a; cbn [perform].
  - pose proof (connect_preserves_ok connect_error address0 w Hok) as H.
    unfold mbind, M_bind. now destruct (_connect connect_error address0 w).
  - apply keeps_table_ok; [apply keeps_broadcast|exact Hok].
  - apply keeps_table_ok; [|exact Hok]. unfold start, listen. keeps.
  - apply keeps_table_ok; [|exact Hok]. unfold stop. keeps.
  - apply keeps_table_ok; [|exact Hok]. unfold listening_listener. keeps.
  - now apply server_connection_preserves_ok.
  - apply keeps_table_ok; [|exact Hok]. unfold socket_data. keeps.
    apply keeps_emit_data.
  - apply keeps_table_ok; [|exact Hok]. unfold socket_connected. keeps.
    apply keeps_emit_connect.
  - apply keeps_table_ok; [|exact Hok]. unfold socket_error. keeps.
    apply keeps_emit_error.
  - apply keeps_table_ok; [|exact Hok]. unfold socket_end. keeps.
    apply keeps_emit_end.
Qed.

(** In every world a new peer can get to, the connection table is well
    formed. *)
Lemma reachable_connections_ok (w : World) :
  reachable fromRaw asRaw JSON_parse JSON_stringify sign_hex connect_error w ->
  connections_ok w.
Proof.
  induction 1 as [cfg id st|w a _ IH].
  - now apply connections_ok_new.
  - now apply perform_preserves_ok.
Qed.

End Runs.

(* ===================================================================== *)
(** ** What a data event can and cannot do *)
(* ===================================================================== *)

Lemma quiet_ret {A} (a : A) : quiet (mret a : M A).
Proof. intros w. now exists a, w. Qed.

Lemma quiet_bind {A B} (c : M A) (f : A -> M B) :
  quiet c -> (forall a, quiet (f a)) -> quiet (c ≫= f).
Proof.
  intros Hc Hf w. destruct (Hc w) as (a & w1 & Hrun & Hs & Hw & Hd).
  destruct (Hf a w1) as (b & w2 & Hrun2 & Hs2 & Hw2 & Hd2).
  exists b, w2. unfold mbind, M_bind. rewrite Hrun, Hrun2.
  repeat split; congruence.
Qed.

Lemma quiet_get_self : quiet get_self.
Proof. intros w. now exists (self w), w. Qed.

Lemma quiet_set_self (f : Peer -> Peer) : quiet (set_self f).
Proof. intros w. do 2 eexists. split; [reflexivity|]. now cbn. Qed.

Lemma quiet_log (args : list LogArg) : quiet (log args).
Proof. intros w. do 2 eexists. split; [reflexivity|]. cbn. now observe. Qed.

Lemma quiet_debug (args : list LogArg) : quiet (debug args).
Proof. intros w. do 2 eexists. split; [reflexivity|]. cbn. now observe. Qed.

Lemma quiet_emit (e : Event) : quiet (emit e).
Proof. intros w. do 2 eexists. split; [reflexivity|]. cbn. now observe. Qed.

Create HintDb quiet.

#[local] Hint Resolve quiet_ret quiet_get_self quiet_set_self quiet_log
  quiet_debug quiet_emit : quiet.

(** Walks through a method body that only logs, emits and assigns. *)
Ltac quiet :=
  repeat first
    [ apply quiet_bind; [|intros ?]
    | solve [auto with quiet]
    | match goal with
      | |- quiet (if ?b then _ else _) => destruct b
      | |- quiet (match ?x with _ => _ end) => destruct x
      end ].

Section DataEvents.

Variable fromRaw : Buffer -> Decoded.
Variable asRaw : OutMessage -> Buffer.
Variable JSON_parse : string -> option JSValue.
Variable sign_hex : string -> string.

(** The dispatcher always returns, and leaves every socket alone. *)
Lemma handleMessage_quiet (message : option Message) :
  quiet (_handleMessage JSON_parse sign_hex message).
Proof. unfold _handleMessage, handle_instruction. quiet. Qed.

Lemma handleMessage_keeps_connections (message : option Message) (w : World) :
  connections (self (world_of (_handleMessage JSON_parse sign_hex message w)))
    = connections (self w).
Proof.
  assert (H : keeps_table (_handleMessage JSON_parse sign_hex message)).
  { unfold _handleMessage, handle_instruction. keeps. }
  apply H.
Qed.

(** The data listener on a chunk the Codec refuses. *)
Lemma data_listener_undecodable (this : SocketRef) (data : Buffer) (w : World) :
  decodes fromRaw data = false ->
  dialed_data_listener fromRaw asRaw JSON_parse sign_hex this data w =
    Returned tt
      {| self := self w;
         sockets := alter (set_destroyed true) this (sockets w);
         trace := (trace w ++ parse_diagnostic fromRaw data) ++ [SocketDestroy this] |}.
Proof.
  intros Hd. unfold dialed_data_listener. run.
  rewrite (parseMessage_undecodable fromRaw data w Hd). reflexivity.
Qed.

Lemma parse_diagnostic_writes (data : Buffer) (t : list Effect) :
  writes (t ++ parse_diagnostic fromRaw data) = writes t.
Proof. unfold parse_diagnostic. destruct (fromRaw data); now observe. Qed.

(** X1. Whatever bytes arrive, on a dialed or an accepted socket, the data
    listener returns normally, leaves the connection table as it is, and
    writes at most one frame, to the socket the bytes arrived on. *)
Theorem data_event_replies_at_most_once (this : SocketRef) (data : Buffer)
    (w : World) :
  exists w',
    dialed_data_listener fromRaw asRaw JSON_parse sign_hex this data w = Returned tt w'
    /\ accepted_data_listener fromRaw asRaw JSON_parse sign_hex this data w
         = Returned tt w'
    /\ connections (self w') = connections (self w)
    /\ (writes (trace w') = writes (trace w)
        \/ exists reply,
             writes (trace w') = writes (trace w) ++ [SocketWrite this (asRaw reply)]).
Proof.
  destruct (decodes fromRaw data) eqn:Hdec.
  - unfold decodes in Hdec. destruct (fromRaw data) as [m| |] eqn:Hraw;
      try discriminate.
    destruct (handleMessage_quiet (Some m) w) as (resp & w1 & Hrun & _ & Hw & _).
    pose proof (handleMessage_keeps_connections (Some m) w) as Hconn.
    rewrite Hrun in Hconn. cbn in Hconn.
    destruct (data_listener_decoded fromRaw asRaw JSON_parse sign_hex
                this data m w w1 resp Hraw Hrun) as [Hd Ha].
    rewrite Ha, Hd.
    destruct resp as [| |reply]; eexists; (split; [reflexivity|]);
      (split; [reflexivity|]); cbn; (split; [exact Hconn|]); auto.
    right. exists reply. observe. now rewrite Hw.
  - exists {| self := self w;
              sockets := alter (set_destroyed true) this (sockets w);
              trace := (trace w ++ parse_diagnostic fromRaw data)
                       ++ [SocketDestroy this] |}.
    split; [now apply data_listener_undecodable|].
    split; [now apply data_listener_undecodable|].
    cbn. split; [reflexivity|]. left. rewrite writes_app. cbn.
    rewrite app_nil_r. apply parse_diagnostic_writes.
Qed.

(** X2. A chunk that the Codec decodes, whatever the type of the message,
    never costs the connection: the listener destroys nothing and leaves
    the socket store as it is. *)
Theorem decodable_message_keeps_socket_open (this : SocketRef) (data : Buffer)
    (m : Message) (w : World) :
  fromRaw data = DecodeOk m ->
  exists w',
    dialed_data_listener fromRaw asRaw JSON_parse sign_hex this data w = Returned tt w'
    /\ accepted_data_listener fromRaw asRaw JSON_parse sign_hex this data w
         = Returned tt w'
    /\ sockets w' = sockets w
    /\ destroys (trace w') = destroys (trace w).
Proof.
  intros Hraw.
  destruct (handleMessage_quiet (Some m) w) as (resp & w1 & Hrun & Hs & _ & Hd).
  destruct (data_listener_decoded fromRaw asRaw JSON_parse sign_hex
              this data m w w1 resp Hraw Hrun) as [Hl Ha].
  rewrite Ha, Hl.
  destruct resp; eexists; (split; [reflexivity|]); (split; [reflexivity|]);
    cbn; (split; [exact Hs|]); auto.
  observe. exact Hd.
Qed.

End DataEvents.

(* ===================================================================== *)
(** ** The rows of the dispatch table *)
(* ===================================================================== *)

Lemma append_snoc (a : string) (c : ascii) (b : string) :
  ((a ++ String c EmptyString) ++ b = a ++ String c b)%string.
Proof. induction a as [|x a IH]; cbn; [reflexivity|]. now rewrite IH. Qed.

Lemma append_empty_r (a : string) : (a ++ EmptyString = a)%string.
Proof. induction a as [|x a IH]; cbn; [reflexivity|]. now rewrite IH. Qed.

(** Splitting a text whose first separator comes right after [x]. *)
Lemma split_aux_token (sep : ascii) (x rest cur : string) :
  contains sep x = false ->
  split_aux sep (x ++ String sep rest) cur
    = (cur ++ x)%string :: split_aux sep rest EmptyString.
Proof.
  revert cur. induction x as [|c x IH]; intros cur Hx; cbn in *.
  - now rewrite Ascii.eqb_refl, append_empty_r.
  - apply orb_false_iff in Hx. destruct Hx as [Hc Hx].
    rewrite Hc, (IH _ Hx). now rewrite append_snoc.
Qed.

Lemma split_aux_last (sep : ascii) (x cur : string) :
  contains sep x = false -> split_aux sep x cur = [(cur ++ x)%string].
Proof.
  revert cur. induction x as [|c x IH]; intros cur Hx; cbn in *.
  - now rewrite append_empty_r.
  - apply orb_false_iff in Hx. destruct Hx as [Hc Hx].
    rewrite Hc, (IH _ Hx). now rewrite append_snoc.
Qed.

(** The first two tokens of [x ++ " " ++ op ++ tail]. *)
Lemma split_two_tokens (x op tail : string) :
  contains " " x = false -> contains " " op = false ->
  tail = EmptyString \/ (exists t, tail = String " " t) ->
  split " " (x ++ String " " (op ++ tail)) !! 0%nat = Some x
  /\ split " " (x ++ String " " (op ++ tail)) !! 1%nat = Some op.
Proof.
  intros Hx Hop Htail. unfold split. rewrite (split_aux_token _ _ _ _ Hx). cbn.
  split; [reflexivity|].
  destruct Htail as [->|[t ->]].
  - rewrite append_empty_r, (split_aux_last _ _ _ Hop). reflexivity.
  - rewrite (split_aux_token _ _ _ _ Hop). reflexivity.
Qed.

Section DispatchRows.

Variable fromRaw : Buffer -> Decoded.
Variable asRaw : OutMessage -> Buffer.
Variable JSON_parse : string -> option JSValue.
Variable sign_hex : string -> string.

(** The dispatcher on an IDENT_RESPONSE. *)
Lemma ident_response_run (m : Message) (w : World) :
  msg_type m = P2P_IDENT_RESPONSE ->
  _handleMessage JSON_parse sign_hex (Some m) w =
    if not_get (peers (self w)) (msg_data m) then
      Returned RNull
        {| self := with_peers (assign (peers (self w)) (msg_data m)
                                 {| remote_id := msg_data m |}) (self w);
           sockets := sockets w;
           trace := trace w ++ [Emit (ev_peer (msg_data m))] |}
    else Returned RNull w.
Proof.
  intros Hty. unfold _handleMessage. rewrite Hty. run. cbn.
  destruct (not_get (peers (self w)) (msg_data m)); reflexivity.
Qed.

(** X3. An IDENT_RESPONSE naming an id that the peers table does not hold
    (and that is not a name every object inherits) appends that id to the
    table and emits one [peer] event; otherwise it changes nothing.  Either
    way, the same IDENT_RESPONSE handled again changes nothing, and no
    reply is produced. *)
Theorem ident_response_is_idempotent (m : Message) (w : World) :
  msg_type m = P2P_IDENT_RESPONSE ->
  exists w1,
    _handleMessage JSON_parse sign_hex (Some m) w = Returned RNull w1
    /\ _handleMessage JSON_parse sign_hex (Some m) w1 = Returned RNull w1
    /\ (not_get (peers (self w)) (msg_data m) = true ->
          peers (self w1)
            = peers (self w) ++ [(msg_data m, {| remote_id := msg_data m |})]
          /\ trace w1 = trace w ++ [Emit (ev_peer (msg_data m))])
    /\ (not_get (peers (self w)) (msg_data m) = false -> w1 = w).
Proof.
  intros Hty. rewrite (ident_response_run m w Hty).
  destruct (not_get (peers (self w)) (msg_data m)) eqn:Hnew.
  - eexists. split; [reflexivity|]. split; [|split; [|discriminate]].
    + rewrite (ident_response_run _ _ Hty). cbn. unfold not_get.
      now rewrite own_assign_eq.
    + intros _. cbn. split; [|reflexivity].
      apply assign_fresh. now apply not_get_own.
  - exists w. split; [reflexivity|]. split; [|split; [discriminate|reflexivity]].
    now rewrite (ident_response_run _ _ Hty), Hnew.
Qed.

(** X4. A ROOT message, whatever it carries, is answered by exactly one
    message, of type STATE_COMMITTMENT, carrying the peer's state; the
    Peer and the sockets are unchanged, and the data listener writes that
    one frame to the socket the request arrived on. *)
Theorem root_yields_state_commitment (m : Message) (w : World) :
  msg_type m = P2P_ROOT ->
  let reply := Message_fromVector P2P_STATE_COMMITTMENT (state (self w)) in
  exists w',
    _handleMessage JSON_parse sign_hex (Some m) w = Returned (RMessage reply) w'
    /\ self w' = self w /\ sockets w' = sockets w
    /\ forall this data, fromRaw data = DecodeOk m ->
         exists w'',
           dialed_data_listener fromRaw asRaw JSON_parse sign_hex this data w
             = Returned tt w''
           /\ accepted_data_listener fromRaw asRaw JSON_parse sign_hex this data w
             = Returned tt w''
           /\ writes (trace w'') = writes (trace w) ++ [SocketWrite this (asRaw reply)].
Proof.
  intros Hty reply.
  assert (Hrun : _handleMessage JSON_parse sign_hex (Some m) w =
    Returned (RMessage reply)
      {| self := self w; sockets := sockets w;
         trace := (trace w
           ++ [Log [LStr "type was ROOT, sending state root:"; LMsg reply]])
           ++ [Log [LStr "type was ROOT, state was:"; LVal (state (self w))]] |}).
  { unfold _handleMessage. rewrite Hty. reflexivity. }
  eexists. split; [exact Hrun|]. cbn [self sockets trace]. repeat split.
  intros this data Hdec.
  destruct (data_listener_decoded fromRaw asRaw JSON_parse sign_hex
              this data m w _ _ Hdec Hrun) as [Hd Ha].
  eexists. split; [exact Hd|]. split; [rewrite Ha; exact Hd|].
  cbn [trace]. now observe.
Qed.

(** The dispatcher on an INSTRUCTION, by the second token of the payload. *)
Lemma instruction_run (m : Message) (w : World) :
  msg_type m = P2P_INSTRUCTION ->
  _handleMessage JSON_parse sign_hex (Some m) w =
    handle_instruction sign_hex m w.
Proof. intros Hty. unfold _handleMessage. rewrite Hty. reflexivity. Qed.

Lemma instruction_unhandled (m : Message) (w : World) :
  from_option (String.eqb "SIGN") false (split " " (msg_data m) !! 1%nat) = false ->
  exists w',
    handle_instruction sign_hex m w = Returned RNull w'
    /\ self w' = self w /\ sockets w' = sockets w
    /\ writes (trace w') = writes (trace w).
Proof.
  intros Hop. unfold handle_instruction. rewrite Hop. run.
  eexists. split; [reflexivity|]. cbn. repeat split. now observe.
Qed.

(** X5. An INSTRUCTION whose payload is [x], a space, an opcode, and
    possibly more tokens: when the opcode is SIGN the reply is one
    INSTRUCTION carrying the signature of [x] followed by CHECKSIG, and the
    world is unchanged; any other opcode, and a payload without a space,
    is logged and gets no reply. *)
Theorem instruction_signs_first_token (m : Message) (w : World) :
  msg_type m = P2P_INSTRUCTION ->
  (forall x op tail,
     msg_data m = (x ++ String " " (op ++ tail))%string ->
     contains " " x = false -> contains " " op = false ->
     tail = EmptyString \/ (exists t, tail = String " " t) ->
     (op = "SIGN" ->
        _handleMessage JSON_parse sign_hex (Some m) w =
          Returned
            (RMessage (Message_fromVector P2P_INSTRUCTION
                         (VString (sign_hex x ++ " CHECKSIG")%string)))
            w)
     /\ (op <> "SIGN" ->
           exists w',
             _handleMessage JSON_parse sign_hex (Some m) w = Returned RNull w'
             /\ self w' = self w /\ sockets w' = sockets w
             /\ writes (trace w') = writes (trace w)))
  /\ (contains " " (msg_data m) = false ->
        exists w',
          _handleMessage JSON_parse sign_hex (Some m) w = Returned RNull w'
          /\ self w' = self w /\ sockets w' = sockets w
          /\ writes (trace w') = writes (trace w)).
Proof.
  intros Hty. rewrite (instruction_run m w Hty). split.
  - intros x op tail Hdata Hx Hop Htail.
    destruct (split_two_tokens x op tail Hx Hop Htail) as [H0 H1].
    rewrite <- Hdata in H0, H1. split.
    + intros ->. unfold handle_instruction. rewrite H0, H1. reflexivity.
    + intros Hne. apply instruction_unhandled. rewrite H1.
      change (String.eqb "SIGN" op = false).
      apply String.eqb_neq. congruence.
  - intros Hnone. apply instruction_unhandled. unfold split.
    rewrite (split_aux_last _ _ _ Hnone). reflexivity.
Qed.

Lemma unknown_type_run (m : Message) (w : World) :
  ~ In (msg_type m) handled_types ->
  _handleMessage JSON_parse sign_hex (Some m) w =
    Returned RNull
      {| self := self w; sockets := sockets w;
         trace := trace w
           ++ [Log [LStr "[PEER]";
                    LTemplate [LStr "unhandled message type "; LStr dq;
                               LNum (msg_type m); LStr dq]]] |}.
Proof.
  intros Hty. unfold _handleMessage.
  repeat match goal with
  | |- context [Z.eqb (msg_type m) ?t] =>
      destruct (Z.eqb_spec (msg_type m) t) as [E|_];
      [exfalso; apply Hty; rewrite E; unfold handled_types; cbn; tauto|]
  end. reflexivity.
Qed.

(** X6. A message of a type without a [case] is logged and ignored: no
    reply, the Peer and the sockets unchanged, and the data listener
    neither writes nor destroys. *)
Theorem unknown_type_is_ignored (m : Message) (w : World) :
  ~ In (msg_type m) handled_types ->
  exists w',
    _handleMessage JSON_parse sign_hex (Some m) w = Returned RNull w'
    /\ self w' = self w /\ sockets w' = sockets w
    /\ trace w' = trace w
         ++ [Log [LStr "[PEER]";
                  LTemplate [LStr "unhandled message type "; LStr dq;
                             LNum (msg_type m); LStr dq]]]
    /\ forall this data, fromRaw data = DecodeOk m ->
         dialed_data_listener fromRaw asRaw JSON_parse sign_hex this data w
           = Returned tt w'
         /\ accepted_data_listener fromRaw asRaw JSON_parse sign_hex this data w
           = Returned tt w'.
Proof.
  intros Hty. pose proof (unknown_type_run m w Hty) as Hrun.
  eexists. split; [exact Hrun|]. cbn [self sockets trace]. repeat split.
  - destruct (data_listener_decoded fromRaw asRaw JSON_parse sign_hex
                this data m w _ _ H Hrun) as [Hd _]. exact Hd.
  - destruct (data_listener_decoded fromRaw asRaw JSON_parse sign_hex
                this data m w _ _ H Hrun) as [Hd Ha]. rewrite Ha. exact Hd.
Qed.

(** The messages the dispatcher can return. *)
Lemma handleMessage_reply_cases (m : Message) (w w1 : World) (out : OutMessage) :
  _handleMessage JSON_parse sign_hex (Some m) w = Returned (RMessage out) w1 ->
  out_type out = P2P_IDENT_RESPONSE
  \/ out_type out = P2P_STATE_COMMITTMENT
  \/ out_type out = P2P_PONG
  \/ exists x, out = Message_fromVector P2P_INSTRUCTION
                       (VString (sign_hex x ++ " CHECKSIG")%string).
Proof.
  unfold _handleMessage, handle_instruction. run.
  destruct (Z.eqb (msg_type m) P2P_IDENT_REQUEST); [intros [= <- _]; auto|].
  destruct (Z.eqb (msg_type m) P2P_IDENT_RESPONSE).
  { destruct (not_get _ _); cbn; discriminate. }
  destruct (Z.eqb (msg_type m) P2P_STATE_CHANGE).
  { cbn. destruct (JSON_parse _) as [v|]; cbn; [destruct (truthy v)|];
      cbn; discriminate. }
  destruct (Z.eqb (msg_type m) P2P_ROOT); [cbn; intros [= <- _]; auto|].
  destruct (Z.eqb (msg_type m) P2P_PING); [cbn; intros [= <- _]; auto|].
  destruct (Z.eqb (msg_type m) P2P_INSTRUCTION); [|cbn; discriminate].
  destruct (from_option _ _ _); cbn; [|discriminate].
  intros [= <- _]. right. right. right. eauto.
Qed.

(** X7. A reply is never answered.  When the signer's output contains no
    space (it is hexadecimal text), every message the dispatcher returns
    is one that a dispatcher receiving it answers with nothing: the
    exchange a message starts ends after one reply. *)
Theorem replies_are_never_answered (m m' : Message) (w w1 w2 : World)
    (out : OutMessage) :
  (forall x, contains " " (sign_hex x) = false) ->
  _handleMessage JSON_parse sign_hex (Some m) w = Returned (RMessage out) w1 ->
  msg_type m' = out_type out ->
  (out_type out = P2P_INSTRUCTION -> VString (msg_data m') = out_data out) ->
  exists resp w3,
    _handleMessage JSON_parse sign_hex (Some m') w2 = Returned resp w3
    /\ no_reply resp.
Proof.
  intros Hhex Hrun Hty Hdata.
  destruct (handleMessage_reply_cases m w w1 out Hrun)
    as [E|[E|[E|[x ->]]]].
  - rewrite E in Hty. rewrite (ident_response_run m' w2 Hty).
    destruct (not_get _ _); do 2 eexists; split; try reflexivity; exact I.
  - rewrite E in Hty. rewrite (unknown_type_run m' w2).
    + do 2 eexists. split; [reflexivity|exact I].
    + rewrite Hty. unfold handled_types. cbn. intuition discriminate.
  - rewrite E in Hty. rewrite (unknown_type_run m' w2).
    + do 2 eexists. split; [reflexivity|exact I].
    + rewrite Hty. unfold handled_types. cbn. intuition discriminate.
  - cbn in Hty, Hdata. specialize (Hdata eq_refl). injection Hdata as Hdata.
    rewrite (instruction_run m' w2 Hty).
    destruct (instruction_unhandled m' w2) as (w3 & Hrun3 & _).
    + destruct (split_two_tokens (sign_hex x) "CHECKSIG" EmptyString
                  (Hhex x) eq_refl (or_introl eq_refl)) as [_ H1].
      rewrite Hdata. cbn in H1. rewrite H1. reflexivity.
    + exists RNull, w3. split; [exact Hrun3|exact I].
Qed.

End DispatchRows.

(* ===================================================================== *)
(** ** Dialing, accepting and the handshake *)
(* ===================================================================== *)

Lemma own_assign_ne {V} (t : Table V) (k k' : string) (v : V) :
  k <> k' -> own (assign t k' v) k = own t k.
Proof.
  intros Hne. induction t as [|[k0 v0] t IH]; cbn.
  - destruct (String.eqb_spec k' k); [congruence|reflexivity].
  - destruct (String.eqb_spec k0 k') as [->|Hk0]; cbn.
    + destruct (String.eqb_spec k' k); [congruence|reflexivity].
    + destruct (String.eqb k0 k); [reflexivity|exact IH].
Qed.

Lemma own_snoc_fresh {V} (t : Table V) (k : string) (v : V) :
  own t k = None -> own (t ++ [(k, v)]) k = Some v.
Proof. intros H. rewrite <- (assign_fresh _ _ _ H). apply own_assign_eq. Qed.

Lemma own_snoc_ne {V} (t : Table V) (k k' : string) (v : V) :
  own t k' = None -> k <> k' -> own (t ++ [(k', v)]) k = own t k.
Proof. intros H Hne. rewrite <- (assign_fresh _ _ _ H). now apply own_assign_ne. Qed.

(** Overwriting the entry of [k] drops the reference it held. *)
Lemma assign_drops_old (t : Table nat) (k : string) (old v : nat) :
  NoDup (table_refs t) -> own t k = Some old -> old <> v ->
  ~ In old (table_refs (assign t k v)).
Proof.
  induction t as [|[k0 v0] t IH]; cbn; [discriminate|].
  intros Hnd Hown Hne. inversion Hnd as [|? ? Hnotin Hnd']; subst.
  rewrite list_elem_of_In in Hnotin.
  destruct (String.eqb k0 k); cbn.
  - injection Hown as ->. intros [E|Hin]; [congruence|contradiction].
  - intros [E|Hin].
    + subst v0. apply Hnotin. now apply own_refs with k.
    + now apply (IH Hnd' Hown Hne).
Qed.

Section Handshake.

Variable fromRaw : Buffer -> Decoded.
Variable asRaw : OutMessage -> Buffer.
Variable JSON_parse : string -> option JSValue.
Variable JSON_stringify : JSValue -> JSValue.
Variable sign_hex : string -> string.
Variable connect_error : string -> string -> option Error.

(** X8. Dialing an address with two parts that the table does not hold
    creates one socket and enters it in the table at once, before the
    connection is established: the socket is connecting, carries the error
    and data listeners and the connect callback, and is what [_connect]
    returns.  When [socket.connect] throws, the exception is logged, not
    propagated, and the entry stays.  Nothing is written or emitted, and
    the entries of other addresses are as before. *)
Theorem connect_registers_new_socket (address : string) (w : World) :
  length (split ":" address) = 2%nat ->
  own (connections (self w)) address = None ->
  let r := length (sockets w) in
  let port := default EmptyString (split ":" address !! 1%nat) in
  let host := default EmptyString (split ":" address !! 0%nat) in
  exists w',
    _connect connect_error address w = Returned (Connection r) w'
    /\ connections (self w') = connections (self w) ++ [(address, r)]
    /\ own (connections (self w')) address = Some r
    /\ (forall k, k <> address ->
          own (connections (self w')) k = own (connections (self w)) k)
    /\ sockets w' = sockets w ++ [dialed_socket address]
    /\ identity (self w') = identity (self w)
    /\ peers (self w') = peers (self w)
    /\ writes (trace w') = writes (trace w)
    /\ emitted (trace w') = emitted (trace w)
    /\ trace w' = trace w
         ++ [NewSocket r; SocketOn r (dialed_error address); SocketOn r dialed_data]
         ++ [match connect_error port host with
             | None => SocketConnect r port host
             | Some E => Log [LStr "[PEER]"; LStr "failed to connect:"; LErr E]
             end].
Proof.
  intros Hparts Hown r port host.
  eexists. split; [apply (connect_new_address connect_error _ _ Hparts Hown)|].
  cbn [self sockets trace with_connections connections].
  split; [reflexivity|]. split; [now apply own_snoc_fresh|].
  split; [intros k Hk; now apply own_snoc_ne|].
  split; [reflexivity|]. split; [reflexivity|]. split; [reflexivity|].
  fold r port host.
  split; [|split; [|reflexivity]].
  - rewrite !writes_app. cbn. destruct (connect_error port host); cbn;
      now rewrite app_nil_r.
  - rewrite !emitted_app. cbn. destruct (connect_error port host); cbn;
      now rewrite app_nil_r.
Qed.

(** What the connect callback does once the entry of its address is
    known. *)
Lemma dialed_connect_run (address : string) (r : SocketRef) (w : World) :
  own (connections (self w)) address = Some r ->
  dialed_connect_listener asRaw address w =
    Returned tt
      {| self := self w; sockets := sockets w;
         trace := trace w
           ++ [Emit (ev_connection address "handshake" true);
               Log [LTemplate [LStr "connection to "; LStr address;
                               LStr " established!"]];
               SocketWrite r
                 (asRaw (Message_fromVector P2P_IDENT_REQUEST
                           (VString (peer_id (self w)))))] |}.
Proof.
  intros Hown. unfold dialed_connect_listener, connection_at. run. cbn.
  rewrite Hown. run. now rewrite <- !app_assoc.
Qed.

(** X9. The whole handshake of the dialing side: when the connection of a
    newly dialed address is established, the peer emits one [connection]
    event with status handshake, and writes exactly one frame to the new
    socket, an IDENT_REQUEST carrying its own id; the socket is no longer
    connecting and is still the entry of the address. *)
Theorem dial_then_connect_sends_ident_request (address : string) (w : World) :
  length (split ":" address) = 2%nat ->
  own (connections (self w)) address = None ->
  connect_error (default EmptyString (split ":" address !! 1%nat))
                (default EmptyString (split ":" address !! 0%nat)) = None ->
  let r := length (sockets w) in
  let hello :=
    asRaw (Message_fromVector P2P_IDENT_REQUEST (VString (peer_id (self w)))) in
  exists w',
    (_connect connect_error address ;; socket_connected asRaw r) w = Returned tt w'
    /\ own (connections (self w')) address = Some r
    /\ sockets w' = sockets w ++ [set_connecting false (dialed_socket address)]
    /\ writes (trace w') = writes (trace w) ++ [SocketWrite r hello]
    /\ emitted (trace w')
         = emitted (trace w) ++ [Emit (ev_connection address "handshake" true)].
Proof.
  intros Hparts Hown Hok r hello.
  unfold mbind, M_bind.
  rewrite (connect_new_address connect_error _ _ Hparts Hown), Hok.
  unfold socket_connected, read_socket. run. subst r hello.
  rewrite alter_last, list_lookup_middle by reflexivity. cbn.
  unfold mbind, M_bind.
  rewrite (dialed_connect_run address (length (sockets w)));
    [|cbn; now apply own_snoc_fresh].
  cbn. eexists. split; [reflexivity|]. cbn.
  split; [now apply own_snoc_fresh|]. split; [reflexivity|].
  split; now observe.
Qed.

(** X10. The identity handshake between two peers.  The dialing peer's
    connect callback writes an IDENT_REQUEST; when the Codec carries it to
    the accepting peer, that peer answers with one IDENT_RESPONSE naming
    itself and learns nothing about the dialer; when the Codec carries the
    answer back, the dialer enters the accepting peer's id in its peers
    table, emits one [peer] event and writes nothing more. *)
Theorem handshake_round_trip (dialer acceptor : World) (address : string)
    (rd ra : SocketRef) (request response : Message) :
  let hello :=
    asRaw (Message_fromVector P2P_IDENT_REQUEST (VString (peer_id (self dialer)))) in
  let answer :=
    asRaw (Message_fromVector P2P_IDENT_RESPONSE (VString (peer_id (self acceptor)))) in
  own (connections (self dialer)) address = Some rd ->
  fromRaw hello = DecodeOk request ->
  msg_type request = P2P_IDENT_REQUEST ->
  fromRaw answer = DecodeOk response ->
  msg_type response = P2P_IDENT_RESPONSE ->
  msg_data response = peer_id (self acceptor) ->
  not_get (peers (self dialer)) (peer_id (self acceptor)) = true ->
  exists dialer1 acceptor1 dialer2,
    dialed_connect_listener asRaw address dialer = Returned tt dialer1
    /\ writes (trace dialer1) = writes (trace dialer) ++ [SocketWrite rd hello]
    /\ accepted_data_listener fromRaw asRaw JSON_parse sign_hex ra hello acceptor
         = Returned tt acceptor1
    /\ writes (trace acceptor1) = writes (trace acceptor) ++ [SocketWrite ra answer]
    /\ self acceptor1 = self acceptor
    /\ dialed_data_listener fromRaw asRaw JSON_parse sign_hex rd answer dialer1
         = Returned tt dialer2
    /\ writes (trace dialer2) = writes (trace dialer1)
    /\ peers (self dialer2)
         = peers (self dialer)
           ++ [(peer_id (self acceptor), {| remote_id := peer_id (self acceptor) |})]
    /\ emitted (trace dialer2)
         = emitted (trace dialer1) ++ [Emit (ev_peer (peer_id (self acceptor)))].
Proof.
  intros hello answer Hown Hreq Hreqty Hres Hresty Hresdata Hnew.
  (* the dialer says hello *)
  eexists. eexists. eexists.
  split; [apply (dialed_connect_run address rd dialer Hown)|].
  split; [cbn; now observe|].
  (* the acceptor answers *)
  assert (Hacc : _handleMessage JSON_parse sign_hex (Some request) acceptor =
                 Returned (RMessage (Message_fromVector P2P_IDENT_RESPONSE
                                       (VString (peer_id (self acceptor)))))
                          acceptor).
  { unfold _handleMessage. rewrite Hreqty. reflexivity. }
  destruct (data_listener_decoded fromRaw asRaw JSON_parse sign_hex
              ra hello request acceptor _ _ Hreq Hacc) as [Hd Ha].
  split; [rewrite Ha; exact Hd|].
  split; [cbn; now observe|]. split; [reflexivity|].
  (* the dialer registers the acceptor *)
  match goal with
  | |- dialed_data_listener _ _ _ _ _ _ ?d1 = _ /\ _ => set (dialer1 := d1)
  end.
  assert (Hdial : _handleMessage JSON_parse sign_hex (Some response) dialer1 =
    Returned RNull
      {| self := with_peers (assign (peers (self dialer)) (peer_id (self acceptor))
                               {| remote_id := peer_id (self acceptor) |})
                   (self dialer);
         sockets := sockets dialer;
         trace := trace dialer1 ++ [Emit (ev_peer (peer_id (self acceptor)))] |}).
  { rewrite (ident_response_run JSON_parse sign_hex response dialer1 Hresty).
    rewrite Hresdata. subst dialer1. cbn [self sockets trace]. now rewrite Hnew. }
  destruct (data_listener_decoded fromRaw asRaw JSON_parse sign_hex
              rd answer response dialer1 _ _ Hres Hdial) as [Hd' _].
  split; [exact Hd'|]. subst dialer1.
  cbn [self sockets trace with_peers peers].
  split; [now observe|]. split; [|now observe].
  apply assign_fresh. now apply not_get_own.
Qed.

End Handshake.

(* ===================================================================== *)
(** ** Accepting, the end of a stream, and gossip *)
(* ===================================================================== *)

Section Gossip.

Variable fromRaw : Buffer -> Decoded.
Variable asRaw : OutMessage -> Buffer.
Variable JSON_parse : string -> option JSValue.
Variable JSON_stringify : JSValue -> JSValue.
Variable sign_hex : string -> string.

(** [broadcast] on a well-formed table. *)
Lemma broadcast_run (p : JSValue) (w : World) :
  connections_ok w ->
  broadcast asRaw JSON_stringify p w =
    Returned tt
      {| self := self w; sockets := sockets w;
         trace := trace w ++
           map (fun r => SocketWrite r (broadcast_frame asRaw JSON_stringify p))
               (List.filter (eligible (sockets w))
                  (table_refs (connections (self w)))) |}.
Proof.
  intros (Hkeys & Hrefs & Hvalid). unfold broadcast. run.
  rewrite for_in_broadcast; auto.
  - unfold broadcast_frame. now destruct (typeof_is_string p).
  - intros k r Hin. now apply own_In.
Qed.

Lemma broadcast_writes_live (p : JSValue) (w : World) (k : string) (r : SocketRef) :
  connections_ok w ->
  own (connections (self w)) k = Some r ->
  eligible (sockets w) r = true ->
  writes_to r (trace (world_of (broadcast asRaw JSON_stringify p w)))
    = writes_to r (trace w)
      ++ [SocketWrite r (broadcast_frame asRaw JSON_stringify p)].
Proof.
  intros Hok Hown Hel. rewrite (broadcast_run p w Hok). cbn [world_of trace].
  destruct Hok as (_ & Hrefs & _).
  rewrite writes_to_app, writes_to_map.
  - replace (existsb _ _) with true; [reflexivity|].
    symmetry. apply existsb_exists. exists r. split; [|apply Nat.eqb_refl].
    apply List.filter_In. split; [|exact Hel]. now apply own_refs with k.
  - apply NoDup_ListNoDup. apply List.NoDup_filter. now apply NoDup_ListNoDup.
Qed.

(** X11. Accepting a transport enters its socket in the table under
    [remoteAddress:remotePort] and emits one [connection] event with status
    connected; nothing is written.  Entries of other addresses are as
    before.  An entry the address already had is overwritten: in a
    well-formed table the socket it held is no longer referred to by any
    entry. *)
Theorem accept_registers_under_remote_address (ra rp : string) (w : World) :
  let r := length (sockets w) in
  let address := join2 ":" (Some ra) (Some rp) in
  exists w',
    server_connection ra rp w = Returned tt w'
    /\ own (connections (self w')) address = Some r
    /\ (forall k, k <> address ->
          own (connections (self w')) k = own (connections (self w)) k)
    /\ Object_keys (connections (self w'))
         = match own (connections (self w)) address with
           | Some _ => Object_keys (connections (self w))
           | None => Object_keys (connections (self w)) ++ [address]
           end
    /\ sockets w' = sockets w ++ [accepted_socket ra rp]
    /\ emitted (trace w')
         = emitted (trace w) ++ [Emit (ev_connection address "connected" false)]
    /\ writes (trace w') = writes (trace w)
    /\ (forall old, connections_ok w ->
          own (connections (self w)) address = Some old ->
          ~ In old (table_refs (connections (self w')))).
Proof.
  intros r address. eexists. split; [apply server_connection_run|].
  cbn [self sockets trace with_connections connections]. fold r address.
  split; [apply own_assign_eq|].
  split; [intros k Hk; now apply own_assign_ne|].
  split; [apply assign_keys|]. split; [reflexivity|].
  split; [now observe|]. split; [now observe|].
  intros old (_ & Hrefs & Hvalid) Hold.
  apply assign_drops_old; auto.
  rewrite List.Forall_forall in Hvalid.
  specialize (Hvalid old (own_refs _ _ _ Hold)). unfold r. lia.
Qed.

(** X12. The end of a stream removes nothing.  After a transport is
    accepted and its remote side ends the stream, one [part] event carrying
    the address has been emitted, nothing has been destroyed, the entry of
    the address still holds the socket, and a [broadcast] still writes its
    frame to it. *)
Theorem end_of_stream_keeps_connection (ra rp : string) (p : JSValue) (w : World) :
  connections_ok w ->
  let r := length (sockets w) in
  let address := join2 ":" (Some ra) (Some rp) in
  exists w',
    (server_connection ra rp ;; socket_end r) w = Returned tt w'
    /\ own (connections (self w')) address = Some r
    /\ emitted (trace w')
         = emitted (trace w)
           ++ [Emit (ev_connection address "connected" false); Emit (ev_part address)]
    /\ destroys (trace w') = destroys (trace w)
    /\ writes_to r (trace (world_of (broadcast asRaw JSON_stringify p w')))
         = writes_to r (trace w')
           ++ [SocketWrite r (broadcast_frame asRaw JSON_stringify p)].
Proof.
  intros Hok r address.
  pose proof (server_connection_preserves_ok ra rp w Hok) as Hok1.
  rewrite server_connection_run in Hok1. cbn [world_of] in Hok1.
  fold r address in Hok1.
  unfold mbind, M_bind. rewrite server_connection_run. fold r address.
  unfold socket_end, read_socket. run. subst r.
  rewrite list_lookup_middle by reflexivity.
  cbn [listeners accepted_socket emit_end]. fold address.
  unfold accepted_end_listener. run.
  eexists. split; [reflexivity|]. cbn [self sockets trace with_connections connections].
  split; [apply own_assign_eq|].
  split; [observe; now rewrite <- ?app_assoc|].
  split; [observe; now rewrite <- ?app_assoc|].
  match goal with
  | |- context [broadcast _ _ _ ?w1] => set (w' := w1)
  end.
  assert (Hok' : connections_ok w').
  { unfold connections_ok in *. exact Hok1. }
  apply (broadcast_writes_live p w' address (length (sockets w)) Hok').
  - cbn. apply own_assign_eq.
  - unfold eligible. cbn. now rewrite list_lookup_middle.
Qed.

(** X13. Gossip from one peer to the next.  When a payload that is not a
    string is serialized to a text which the Codec carries unchanged and
    which parses back to the payload, and the payload is truthy, a
    [broadcast] writes the frame to a live connection of the sender, and
    the receiver's data listener, given that frame, emits exactly one
    [changes] event carrying the payload itself; the receiver writes
    nothing, neither a reply nor a relay, and its Peer is unchanged. *)
Theorem broadcast_reaches_changes_listener (p : JSValue) (text : string)
    (m : Message) (sender receiver : World) (k : string) (r this : SocketRef) :
  typeof_is_string p = false ->
  JSON_stringify p = VString text ->
  fromRaw (asRaw (Message_fromVector P2P_STATE_CHANGE (VString text))) = DecodeOk m ->
  msg_type m = P2P_STATE_CHANGE ->
  msg_data m = text ->
  JSON_parse text = Some p ->
  truthy p = true ->
  connections_ok sender ->
  own (connections (self sender)) k = Some r ->
  eligible (sockets sender) r = true ->
  let frame := asRaw (Message_fromVector P2P_STATE_CHANGE (VString text)) in
  writes_to r (trace (world_of (broadcast asRaw JSON_stringify p sender)))
    = writes_to r (trace sender) ++ [SocketWrite r frame]
  /\ exists receiver',
       accepted_data_listener fromRaw asRaw JSON_parse sign_hex this frame receiver
         = Returned tt receiver'
       /\ dialed_data_listener fromRaw asRaw JSON_parse sign_hex this frame receiver
         = Returned tt receiver'
       /\ emitted (trace receiver') = emitted (trace receiver) ++ [Emit (ev_changes p)]
       /\ writes (trace receiver') = writes (trace receiver)
       /\ self receiver' = self receiver
       /\ sockets receiver' = sockets receiver.
Proof.
  intros Hnot Htext Hraw Hty Hdata Hparse Htruthy Hok Hown Hel frame.
  split.
  - rewrite (broadcast_writes_live p sender k r Hok Hown Hel).
    unfold broadcast_frame. now rewrite Hnot, Htext.
  - assert (Hrun : _handleMessage JSON_parse sign_hex (Some m) receiver =
      Returned RNull
        {| self := self receiver; sockets := sockets receiver;
           trace := (trace receiver
                     ++ [Log [LStr "type was STATE_CHANGE, change is:";
                              LVal (VString (msg_data m))]])
                    ++ [Emit (ev_changes p)] |}).
    { unfold _handleMessage. rewrite Hty. run. cbn.
      rewrite Hdata, Hparse, Htruthy. reflexivity. }
    destruct (data_listener_decoded fromRaw asRaw JSON_parse sign_hex
                this frame m receiver _ _ Hraw Hrun) as [Hd Ha].
    eexists. split; [rewrite Ha; exact Hd|]. split; [exact Hd|].
    cbn [self sockets trace]. repeat split; now observe.
Qed.

End Gossip.

(** X14. [start] is idempotent: calling it twice, in any world, ends as
    calling it once does, with the same result and the same world. *)
Theorem start_is_idempotent (w : World) : (start ;; start) w = start w.
Proof.
  unfold start, listen. run. cbn.
  destruct (has_server (self w)) eqn:Hs; cbn.
  - now rewrite Hs.
  - destruct (isLegalPortNumber (cfg_port (config (self w)))); reflexivity.
Qed.

(* ===================================================================== *)
(** ** What holds along every run *)
(* ===================================================================== *)

Lemma split_two_has_separator (sep : ascii) (s : string) :
  length (split sep s) = 2%nat -> contains sep s = true.
Proof.
  intros Hlen. destruct (contains sep s) eqn:E; [reflexivity|].
  unfold split in Hlen. rewrite (split_aux_last _ _ _ E) in Hlen. discriminate.
Qed.

Lemma contains_middle (c : ascii) (a b : string) :
  contains c (a ++ String c b)%string = true.
Proof.
  induction a as [|x a IH]; cbn.
  - now rewrite Ascii.eqb_refl.
  - rewrite IH. apply orb_true_r.
Qed.

Lemma preserves_ret {X A} (f : World -> X) (a : A) : preserves f (mret a : M A).
Proof. intros w. reflexivity. Qed.

Lemma preserves_throw {X A} (f : World -> X) (e : Error) :
  preserves f (throw e : M A).
Proof. intros w. reflexivity. Qed.

Lemma preserves_bind {X A B} (f : World -> X) (c : M A) (g : A -> M B) :
  preserves f c -> (forall a, preserves f (g a)) -> preserves f (c ≫= g).
Proof.
  intros Hc Hg w. specialize (Hc w). unfold mbind, M_bind.
  destruct (c w) as [a w'|e w']; cbn in *; [|exact Hc].
  now rewrite (Hg a w').
Qed.

Lemma preserves_try_catch {X A} (f : World -> X) (c : M A) (h : Error -> M A) :
  preserves f c -> (forall e, preserves f (h e)) -> preserves f (try_catch c h).
Proof.
  intros Hc Hh w. specialize (Hc w). unfold try_catch.
  destruct (c w) as [a w'|e w']; cbn in *; [exact Hc|].
  now rewrite (Hh e w').
Qed.

(** The identity of the peer in a world. *)
Abbreviation who := (fun w : World => identity (self w)).

Lemma who_effect (e : Effect) : preserves who (effect e).
Proof. intros w. reflexivity. Qed.

Lemma who_get_self : preserves who get_self.
Proof. intros w. reflexivity. Qed.

Lemma who_set_sockets (g : list Socket -> list Socket) :
  preserves who (set_sockets g).
Proof. intros w. reflexivity. Qed.

Lemma who_read_socket (r : SocketRef) : preserves who (read_socket r).
Proof. intros w. unfold read_socket. now destruct (sockets w !! r). Qed.

Lemma who_set_self (g : Peer -> Peer) :
  (forall p, identity (g p) = identity p) -> preserves who (set_self g).
Proof. intros Hg w. cbn. apply Hg. Qed.

Create HintDb who.

#[local] Hint Resolve preserves_ret preserves_throw who_effect who_get_self
  who_set_sockets who_read_socket : who.

(** Walks through a method body, for the identity of the peer. *)
Ltac who :=
  repeat first
    [ progress unfold log, debug, emit, socket_on, socket_write, socket_destroy
    | apply preserves_bind; [|intros ?]
    | apply preserves_try_catch; [|intros ?]
    | apply who_set_self; intros ?; reflexivity
    | solve [auto with who]
    | match goal with
      | |- preserves _ (if ?b then _ else _) => destruct b
      | |- preserves _ (match ?x with _ => _ end) => destruct x
      end ].

Section Invariants.

Variable fromRaw : Buffer -> Decoded.
Variable asRaw : OutMessage -> Buffer.
Variable JSON_parse : string -> option JSValue.
Variable JSON_stringify : JSValue -> JSValue.
Variable sign_hex : string -> string.
Variable connect_error : string -> string -> option Error.

Abbreviation perform' :=
  (perform fromRaw asRaw JSON_parse JSON_stringify sign_hex connect_error).

(** The keys of the table after an action: the keys before, and possibly
    one more, which contains a colon. *)
Lemma perform_keys (a : Action) (w : World) :
  exists extra,
    Object_keys (connections (self (world_of (perform' a w))))
      = Object_keys (connections (self w)) ++ extra
    /\ Forall (fun k => contains ":" k = true) extra.
Proof.
  assert (Hkeep : forall c : M unit, keeps_table c ->
    exists extra,
      Object_keys (connections (self (world_of (c w))))
        = Object_keys (connections (self w)) ++ extra
      /\ Forall (fun k => contains ":" k = true) extra).
  { intros c Hc. exists []. destruct (Hc w) as [-> _].
    split; [now rewrite app_nil_r|constructor]. }
  destruct a; cbn [perform].
  - (* _connect *)
    destruct (Nat.eq_dec (length (split ":" address0)) 2%nat) as [Hparts|Hparts].
    + destruct (own (connections (self w)) address0) as [r|] eqn:Hown.
      * exists []. unfold mbind, M_bind.
        rewrite (connect_known connect_error _ _ _ Hparts Hown). cbn.
        split; [now rewrite app_nil_r|constructor].
      * exists [address0]. unfold mbind, M_bind.
        rewrite (connect_new_address connect_error _ _ Hparts Hown). cbn.
        split.
        -- unfold Object_keys. now rewrite map_app.
        -- repeat constructor. now apply split_two_has_separator.
    + exists []. unfold mbind, M_bind.
      rewrite (connect_invalid connect_error _ w Hparts). cbn.
      split; [now rewrite app_nil_r|constructor].
  - apply Hkeep, keeps_broadcast.
  - apply Hkeep. unfold start, listen. keeps.
  - apply Hkeep. unfold stop. keeps.
  - apply Hkeep. unfold listening_listener. keeps.
  - (* an accepted transport *)
    rewrite server_connection_run.
    cbn [world_of self connections with_connections]. rewrite assign_keys.
    destruct (own (connections (self w)) _).
    + exists []. split; [now rewrite app_nil_r|constructor].
    + eexists [_]. split; [reflexivity|].
      repeat constructor. unfold join2. cbn. apply contains_middle.
  - apply Hkeep. unfold socket_data. keeps. apply keeps_emit_data.
  - apply Hkeep. unfold socket_connected. keeps. apply keeps_emit_connect.
  - apply Hkeep. unfold socket_error. keeps. apply keeps_emit_error.
  - apply Hkeep. unfold socket_end. keeps. apply keeps_emit_end.
Qed.

(** X15. In every world a new peer can get to by calls of its methods and
    by socket and server events, the connection table is well formed (its
    keys are distinct, its entries refer to sockets of the store, no socket
    is entered twice) and every key contains a colon, so that no key is an
    array index and the table is enumerated in insertion order. *)
Theorem reachable_table_well_formed (w : World) :
  reachable fromRaw asRaw JSON_parse JSON_stringify sign_hex connect_error w ->
  connections_ok w
  /\ Forall (fun k => contains ":" k = true) (Object_keys (connections (self w))).
Proof.
  induction 1 as [cfg id st|w a _ [IHok IHkeys]].
  - split; [now apply connections_ok_new|constructor].
  - split; [now apply perform_preserves_ok|].
    destruct (perform_keys a w) as (extra & -> & Hextra).
    apply Forall_app. split; [exact IHkeys|exact Hextra].
Qed.

(** X16. No action ever removes an entry from the connection table: a key
    of the table before a method call or an event, whichever way it ends,
    is a key of the table after it. *)
Theorem connection_entries_never_removed (a : Action) (w : World) (k : string) :
  In k (Object_keys (connections (self w))) ->
  In k (Object_keys (connections (self (world_of (perform' a w))))).
Proof.
  intros Hin. destruct (perform_keys a w) as (extra & -> & _).
  apply in_or_app. now left.
Qed.

(** X17. No action changes who the peer is: its configuration, id, address
    and port, its state snapshot and the clock, stack and known fields are
    after every method call and every event, whichever way it ends, what
    they were before. *)
Theorem peer_identity_never_changes (a : Action) (w : World) :
  identity (self (world_of (perform' a w))) = identity (self w).
Proof.
  assert (Hhandle : forall message,
    preserves who (_handleMessage JSON_parse sign_hex message)).
  { intros message. unfold _handleMessage, handle_instruction. who. }
  assert (Hparse : forall data, preserves who (_parseMessage fromRaw data)).
  { intros data. unfold _parseMessage. who. }
  assert (Hat : forall address, preserves who (connection_at address)).
  { intros address. unfold connection_at. who. }
  destruct a; cbn [perform].
  - destruct (Nat.eq_dec (length (split ":" address0)) 2%nat) as [Hparts|Hparts].
    + destruct (own (connections (self w)) address0) as [r|] eqn:Hown.
      * unfold mbind, M_bind.
        now rewrite (connect_known connect_error _ _ _ Hparts Hown).
      * unfold mbind, M_bind.
        now rewrite (connect_new_address connect_error _ _ Hparts Hown).
    + unfold mbind, M_bind. now rewrite (connect_invalid connect_error _ w Hparts).
  - revert w. change (preserves who (broadcast asRaw JSON_stringify message)).
    unfold broadcast. who.
    induction (Object_keys (connections a)) as [|i keys IH]; cbn; who;
      try (unfold broadcast_step; who).
  - revert w. change (preserves who start). unfold start, listen. who.
  - revert w. change (preserves who stop). unfold stop. who.
  - revert w. change (preserves who listening_listener).
    unfold listening_listener. who.
  - now rewrite server_connection_run.
  - revert w.
    change (preserves who (socket_data fromRaw asRaw JSON_parse sign_hex r data)).
    unfold socket_data. who.
    induction (listeners a) as [|l ls IH]; cbn; who;
      try (unfold dialed_data_listener; who);
      try (unfold accepted_data_listener; who).
  - revert w. change (preserves who (socket_connected asRaw r)).
    unfold socket_connected. who.
    induction (listeners a0) as [|l ls IH]; cbn; who;
      try (unfold dialed_connect_listener; who).
  - revert w. change (preserves who (socket_error r err)).
    unfold socket_error. who.
    induction (listeners a0) as [|l ls IH]; cbn; who;
      try (unfold dialed_error_listener; who).
  - revert w. change (preserves who (socket_end r)).
    unfold socket_end. who.
    induction (listeners a) as [|l ls IH]; cbn; who;
      try (unfold accepted_end_listener; who).
Qed.

End Invariants.

(* ===================================================================== *)
(** ** The wallet's locktime encoding and chain scan *)
(* ===================================================================== *)

Lemma land_le_r (a b : Z) : 0 <= b -> Z.land a b <= b.
Proof.
  intros Hb.
  assert (H : Z.ldiff (Z.land a b) b = 0).
  { apply Z.bits_inj'. intros i Hi. rewrite Z.ldiff_spec, Z.land_spec, Z.bits_0.
    destruct (Z.testbit a i), (Z.testbit b i); reflexivity. }
  pose proof (Z.sub_nocarry_ldiff b (Z.land a b) H) as E.
  assert (0 <= Z.ldiff b (Z.land a b)) by (apply Z.ldiff_nonneg; auto).
  lia.
Qed.

Lemma lor_lt_pow2 (a b k : Z) :
  0 <= a < 2 ^ k -> 0 <= b < 2 ^ k -> 0 <= Z.lor a b < 2 ^ k.
Proof.
  intros Ha Hb. split; [apply Z.lor_nonneg; lia|].
  destruct (Z.eq_dec a 0) as [->|Ha0]; [rewrite Z.lor_0_l; lia|].
  destruct (Z.eq_dec b 0) as [->|Hb0]; [rewrite Z.lor_0_r; lia|].
  assert (0 < Z.lor a b).
  { assert (0 <= Z.lor a b) by (apply Z.lor_nonneg; lia).
    assert (Z.lor a b <> 0) by (intros E; apply Z.lor_eq_0_iff in E; lia). lia. }
  apply Z.log2_lt_pow2; [assumption|].
  rewrite Z.log2_lor by lia.
  apply Z.max_lub_lt; apply Z.log2_lt_pow2; lia.
Qed.

Lemma ToUint32_range (z : Z) : 0 <= Wallet.ToUint32 z < 2 ^ 32.
Proof. unfold Wallet.ToUint32. apply Z.mod_pos_bound. lia. Qed.

Lemma ToUint32_small (n : Z) : 0 <= n < 2 ^ 32 -> Wallet.ToUint32 n = n.
Proof. intros H. unfold Wallet.ToUint32. now apply Z.mod_small. Qed.

Lemma ToInt32_small (n : Z) : 0 <= n < 2 ^ 31 -> Wallet.ToInt32 n = n.
Proof.
  intros H. unfold Wallet.ToInt32. rewrite Z.mod_small by lia.
  destruct (Z.leb_spec (2 ^ 31) n); [lia|reflexivity].
Qed.

(** Masking with a non-negative int32 reads the low bits only, so the
    signed reading of the left operand does not matter. *)
Lemma land_ToInt32 (n mask : Z) :
  0 <= mask < 2 ^ 31 -> Z.land (Wallet.ToInt32 n) mask = Z.land (n mod 2 ^ 32) mask.
Proof.
  intros Hm. unfold Wallet.ToInt32.
  destruct (Z.leb (2 ^ 31) (n mod 2 ^ 32)); [|reflexivity].
  apply Z.bits_inj'. intros i Hi. rewrite !Z.land_spec.
  destruct (Z.lt_ge_cases i 32) as [Hlo|Hhi].
  - f_equal.
    rewrite <- (Z.mod_pow2_bits_low (n mod 2 ^ 32 - 2 ^ 32) 32 i) by exact Hlo.
    rewrite <- (Z.mod_pow2_bits_low (n mod 2 ^ 32) 32 i) by exact Hlo.
    f_equal.
    replace (n mod 2 ^ 32 - 2 ^ 32) with (n mod 2 ^ 32 + (-1) * 2 ^ 32) by lia.
    now rewrite Z.mod_add by lia.
  - assert (Z.testbit mask i = false) as ->.
    { destruct (Z.eq_dec mask 0) as [->|Hne]; [apply Z.bits_0|].
      apply Z.bits_above_log2; [lia|].
      assert (Z.log2 mask < 31) by (apply Z.log2_lt_pow2; lia). lia. }
    now rewrite !andb_false_r.
Qed.

Lemma band_mask (n mask : Z) :
  0 <= n < 2 ^ 32 -> 0 <= mask < 2 ^ 31 ->
  Wallet.band n mask = Z.land n mask /\ 0 <= Z.land n mask <= mask.
Proof.
  intros Hn Hm.
  assert (Hb : 0 <= Z.land n mask <= mask).
  { split; [apply Z.land_nonneg; lia|apply land_le_r; lia]. }
  split; [|exact Hb]. unfold Wallet.band.
  rewrite (ToInt32_small mask Hm), land_ToInt32 by exact Hm.
  rewrite (Z.mod_small n) by lia. apply ToInt32_small. lia.
Qed.

(** A number that is exactly an integer is read as that integer. *)
Lemma Number_is_truncate (x : Number) (n : Z) :
  Wallet.Number_is x n = true -> Wallet.truncate x = n.
Proof.
  destruct x as [s|s| |s m e]; cbn; try discriminate.
  - now intros H%Z.eqb_eq.
  - destruct (Z.leb 0 e).
    + intros H%Z.eqb_eq. now destruct s.
    + intros [_ H%Z.eqb_eq]%andb_true_iff. now destruct s.
Qed.

Section Locktime.

Variable SEQUENCE_GRANULARITY : Z.
Variable SEQUENCE_MASK : Z.
Variable SEQUENCE_TYPE_FLAG : Z.

Abbreviation CSVencode' :=
  (Wallet.CSVencode SEQUENCE_GRANULARITY SEQUENCE_MASK SEQUENCE_TYPE_FLAG).

Lemma CSVencode_uint32 (x : Number) (n : Z) (seconds : bool) :
  Wallet.Number_is x n = true -> 0 <= n < 2 ^ 32 ->
  CSVencode' x seconds =
    if seconds then
      Wallet.Ok (Wallet.bor (Wallet.band (Wallet.ushr n SEQUENCE_GRANULARITY)
                               SEQUENCE_MASK) SEQUENCE_TYPE_FLAG)
    else Wallet.Ok (Wallet.band n SEQUENCE_MASK).
Proof.
  intros His Hn. unfold Wallet.CSVencode.
  rewrite (Number_is_truncate x n His), (ToUint32_small n Hn), His. reflexivity.
Qed.

(** X18. [CSVencode] returns a value exactly for the locktimes that are
    unsigned 32-bit integers; for every other number (negative, fractional,
    2^32 or more, NaN, infinite) it throws, in either mode. *)
Theorem CSVencode_accepts_exactly_uint32 (x : Number) (seconds : bool) :
  (exists v, CSVencode' x seconds = Wallet.Ok v)
  <-> (exists n, 0 <= n < 2 ^ 32 /\ Wallet.Number_is x n = true).
Proof.
  split.
  - intros [v Hv]. unfold Wallet.CSVencode in Hv.
    exists (Wallet.ToUint32 (Wallet.truncate x)). split; [apply ToUint32_range|].
    destruct (Wallet.Number_is x _); [reflexivity|discriminate].
  - intros (n & Hn & His). rewrite (CSVencode_uint32 x n seconds His Hn).
    destruct seconds; eauto.
Qed.

(** X19. In block mode, with a mask that is a non-negative int32,
    [CSVencode] of the unsigned 32-bit locktime [n] is [n] and-ed with the
    mask, a value from 0 up to the mask and no more than [n]; with a mask
    of [k] low bits it is [n] modulo [2^k]. *)
Theorem CSVencode_blocks_masks_locktime (x : Number) (n : Z) :
  Wallet.Number_is x n = true ->
  0 <= n < 2 ^ 32 ->
  0 <= SEQUENCE_MASK < 2 ^ 31 ->
  CSVencode' x false = Wallet.Ok (Z.land n SEQUENCE_MASK)
  /\ 0 <= Z.land n SEQUENCE_MASK <= SEQUENCE_MASK
  /\ Z.land n SEQUENCE_MASK <= n
  /\ (forall k, 0 <= k -> SEQUENCE_MASK = Z.ones k ->
        Z.land n SEQUENCE_MASK = n mod 2 ^ k).
Proof.
  intros His Hn Hm. rewrite (CSVencode_uint32 x n false His Hn).
  destruct (band_mask n SEQUENCE_MASK Hn Hm) as [-> Hb].
  split; [reflexivity|]. split; [exact Hb|]. split.
  - rewrite Z.land_comm. apply land_le_r. lia.
  - intros k Hk ->. now apply Z.land_ones.
Qed.

(** X20. In seconds mode, with a granularity from 0 to 31 and a mask and
    a type flag that are non-negative int32s, [CSVencode] of the unsigned
    32-bit locktime [n] is [n] divided by [2^granularity], masked, with the
    type flag or-ed in: every bit of the flag is set in the result, the
    result is the masked quotient plus the flag when the flag lies outside
    the mask, and two locktimes with the same quotient are encoded alike. *)
Theorem CSVencode_seconds_sets_type_flag (x : Number) (n : Z) :
  Wallet.Number_is x n = true ->
  0 <= n < 2 ^ 32 ->
  0 <= SEQUENCE_GRANULARITY < 32 ->
  0 <= SEQUENCE_MASK < 2 ^ 31 ->
  0 <= SEQUENCE_TYPE_FLAG < 2 ^ 31 ->
  let quotient := n / 2 ^ SEQUENCE_GRANULARITY in
  let encoded := Z.lor (Z.land quotient SEQUENCE_MASK) SEQUENCE_TYPE_FLAG in
  CSVencode' x true = Wallet.Ok encoded
  /\ Z.land encoded SEQUENCE_TYPE_FLAG = SEQUENCE_TYPE_FLAG
  /\ (Z.land SEQUENCE_MASK SEQUENCE_TYPE_FLAG = 0 ->
        encoded = Z.land quotient SEQUENCE_MASK + SEQUENCE_TYPE_FLAG)
  /\ (forall x' n',
        Wallet.Number_is x' n' = true -> 0 <= n' < 2 ^ 32 ->
        n' / 2 ^ SEQUENCE_GRANULARITY = quotient ->
        CSVencode' x' true = CSVencode' x true).
Proof.
  intros His Hn Hg Hm Hf quotient encoded.
  assert (Hshift : forall z, 0 <= z < 2 ^ 32 ->
            Wallet.ushr z SEQUENCE_GRANULARITY = z / 2 ^ SEQUENCE_GRANULARITY
            /\ 0 <= z / 2 ^ SEQUENCE_GRANULARITY < 2 ^ 32).
  { intros z Hz. unfold Wallet.ushr.
    rewrite (ToUint32_small z Hz), (ToUint32_small SEQUENCE_GRANULARITY) by lia.
    rewrite (Z.mod_small SEQUENCE_GRANULARITY) by lia.
    rewrite Z.shiftr_div_pow2 by lia. split; [reflexivity|].
    assert (0 < 2 ^ SEQUENCE_GRANULARITY) by (apply Z.pow_pos_nonneg; lia).
    split; [apply Z.div_pos; lia|].
    apply Z.le_lt_trans with z; [|lia]. apply Z.div_le_upper_bound; nia. }
  assert (Hrun : forall y z, Wallet.Number_is y z = true -> 0 <= z < 2 ^ 32 ->
            CSVencode' y true =
              Wallet.Ok (Z.lor (Z.land (z / 2 ^ SEQUENCE_GRANULARITY) SEQUENCE_MASK)
                           SEQUENCE_TYPE_FLAG)).
  { intros y z Hy Hz. rewrite (CSVencode_uint32 y z true Hy Hz).
    destruct (Hshift z Hz) as [-> Hq].
    destruct (band_mask _ SEQUENCE_MASK Hq Hm) as [-> Hb].
    unfold Wallet.bor.
    rewrite (ToInt32_small (Z.land _ _)), (ToInt32_small SEQUENCE_TYPE_FLAG) by lia.
    rewrite ToInt32_small; [reflexivity|].
    apply lor_lt_pow2; lia. }
  split; [now apply Hrun|]. split; [|split].
  - unfold encoded. apply Z.bits_inj'. intros i Hi.
    rewrite Z.land_spec, Z.lor_spec.
    destruct (Z.testbit SEQUENCE_TYPE_FLAG i);
      [now rewrite orb_true_r|now rewrite andb_false_r].
  - intros Hdisjoint. unfold encoded.
    pose proof (Z.add_lor_land (Z.land quotient SEQUENCE_MASK) SEQUENCE_TYPE_FLAG) as E.
    assert (Z.land (Z.land quotient SEQUENCE_MASK) SEQUENCE_TYPE_FLAG = 0) as Hz.
    { rewrite <- Z.land_assoc, Hdisjoint. apply Z.land_0_r. }
    lia.
  - intros x' n' His' Hn' Hq.
    rewrite (Hrun x' n' His' Hn'), (Hrun x n His Hn). now rewrite Hq.
Qed.

End Locktime.

(** X21. Scanning a chain never reports a transaction: whatever the chain
    and its blocks, the result is the empty array, and the console gets one
    line for the chain and one line for each block, in order. *)
Theorem scanChain_finds_nothing (chain : JSValue) (blocks : list JSValue) :
  snd (Wallet._scanChainForTransactions chain blocks) = []
  /\ fst (Wallet._scanChainForTransactions chain blocks)
     = [LStr "[AUDIT]"; LStr "Scanning chain for transactions:"; LVal chain]
       :: map (fun block =>
                 [LStr "[AUDIT]"; LStr "Scanning block for transactions:"; LVal block])
              blocks.
Proof.
  assert (H : forall acc,
    Wallet.scan_blocks blocks acc
      = (map (fun block =>
                [LStr "[AUDIT]"; LStr "Scanning block for transactions:"; LVal block])
             blocks, acc)).
  { induction blocks as [|block rest IH]; intros acc; cbn; [reflexivity|].
    now rewrite IH. }
  unfold Wallet._scanChainForTransactions. rewrite H. split; reflexivity.
Qed.

(* ===================================================================== *)
(** ** The statements at concrete inputs *)
(* ===================================================================== *)

Section Examples.

Import Sample.

Example world_three_connections :
  connections (self world_three)
    = [("127.0.0.1:7777", 0%nat); ("10.0.0.2:5000", 1%nat); ("10.0.0.3:7777", 2%nat)]
  /\ map connecting (sockets world_three) = [false; false; true].
Proof. split; reflexivity. Qed.

Example path_value_parses :
  JSON.parse path_value_text
    = Some (VObject [("path", VString "/a"); ("value", VNumber one)]).
Proof. vm_compute. reflexivity. Qed.

(** A PING with id 7 arrives, in the sample codec's framing, on the
    accepted socket: the PONG frame is the one thing written. *)
Example ping_over_the_wire :
  let data := [JSON.byte P2P_PING; "7"%char] in
  let w' := world_of (socket_data fromRaw asRaw JSON.parse sign_hex 0%nat data
                        world_accepted) in
  writes (trace w')
    = [SocketWrite 0%nat (asRaw (Message_fromVector P2P_PONG (VString "7")))]
  /\ asRaw (Message_fromVector P2P_PONG (VString "7")) = [JSON.byte P2P_PONG; "7"%char]
  /\ destroys (trace w') = [].
Proof. repeat split; vm_compute; reflexivity. Qed.

(** Garbage arrives on the same socket: it is destroyed, nothing is
    written. *)
Example garbage_over_the_wire :
  let w' := world_of (socket_data fromRaw asRaw JSON.parse sign_hex 0%nat ["x"%char]
                        world_accepted) in
  writes (trace w') = []
  /\ destroys (trace w') = [SocketDestroy 0%nat]
  /\ (destroyed <$> sockets w' !! 0%nat) = Some true.
Proof. repeat split; vm_compute; reflexivity. Qed.

(** The rows of the dispatch table not covered by a statement above. *)
Example ident_response_registers_once :
  let m := {| msg_type := P2P_IDENT_RESPONSE; msg_id := VUndefined;
              msg_data := "remote-peer-id" |} in
  let w1 := world_of (_handleMessage JSON.parse sign_hex (Some m) world0) in
  let w2 := world_of (_handleMessage JSON.parse sign_hex (Some m) w1) in
  peers (self w1) = [("remote-peer-id", {| remote_id := "remote-peer-id" |})]
  /\ trace w1 = [Emit (ev_peer "remote-peer-id")]
  /\ w2 = w1.
Proof. repeat split. Qed.

Example ident_response_inherited_name :
  let m := {| msg_type := P2P_IDENT_RESPONSE; msg_id := VUndefined;
              msg_data := "constructor" |} in
  _handleMessage JSON.parse sign_hex (Some m) world0 = Returned RNull world0.
Proof. reflexivity. Qed.

Example root_sends_state :
  let m := {| msg_type := P2P_ROOT; msg_id := VUndefined; msg_data := EmptyString |} in
  result_of (_handleMessage JSON.parse sign_hex (Some m) world0)
    = Some (RMessage (Message_fromVector P2P_STATE_COMMITTMENT (VObject []))).
Proof. reflexivity. Qed.

Example instruction_sign :
  let m := {| msg_type := P2P_INSTRUCTION; msg_id := VUndefined;
              msg_data := "abc SIGN" |} in
  _handleMessage JSON.parse sign_hex (Some m) world0
    = Returned
        (RMessage (Message_fromVector P2P_INSTRUCTION (VString "sig(abc) CHECKSIG")))
        world0.
Proof. reflexivity. Qed.

Example instruction_other_opcode :
  let m := {| msg_type := P2P_INSTRUCTION; msg_id := VUndefined;
              msg_data := "abc VERIFY" |} in
  result_of (_handleMessage JSON.parse sign_hex (Some m) world0) = Some RNull
  /\ writes (trace (world_of (_handleMessage JSON.parse sign_hex (Some m) world0))) = [].
Proof. split; reflexivity. Qed.

Example unknown_type_logged :
  let m := {| msg_type := 0x99; msg_id := VUndefined; msg_data := EmptyString |} in
  _handleMessage JSON.parse sign_hex (Some m) world0
    = Returned RNull
        {| self := peer0; sockets := [];
           trace := [Log [LStr "[PEER]";
                          LTemplate [LStr "unhandled message type "; LStr dq;
                                     LNum 0x99; LStr dq]]] |}.
Proof. reflexivity. Qed.

(** [start] is idempotent, and [stop] after [start] closes the server. *)
Example start_twice_then_stop :
  world_of ((start ;; start) world0) = world_of (start world0)
  /\ trace (world_of ((start ;; stop) world0))
       = [CreateServer; ServerListen 7777 "0.0.0.0"; ServerClose]
  /\ threw ((start ;; stop) world0) = false.
Proof. repeat split. Qed.

Lemma world_three_ok : connections_ok world_three.
Proof.
  unfold connections_ok. rewrite (proj1 world_three_connections).
  repeat split; cbn.
  - repeat (constructor; [rewrite list_elem_of_In; cbn; intuition discriminate|]).
    constructor.
  - repeat (constructor; [rewrite list_elem_of_In; cbn; intuition discriminate|]).
    constructor.
  - repeat constructor.
Defined.

(** C1 at a concrete input: an empty chunk, which the sample codec
    refuses, arrives on the accepted socket 0. *)
Lemma undecodable_input_destroys_connection_witness :
  decodes fromRaw [] = false
  /\ exists w',
       accepted_data_listener fromRaw asRaw JSON.parse sign_hex 0%nat [] world_accepted
         = Returned tt w'
       /\ (destroyed <$> sockets w' !! 0%nat) = Some true
       /\ writes (trace w') = writes (trace world_accepted).
Proof.
  split; [reflexivity|].
  destruct (undecodable_input_destroys_connection fromRaw asRaw JSON.parse
              sign_hex 0%nat [] world_accepted eq_refl)
    as (w' & _ & Hacc & _ & _ & _ & Hdestroyed & _ & Hwrites & _).
  exists w'. split; [exact Hacc|]. split; [|exact Hwrites].
  now rewrite (Hdestroyed _ eq_refl).
Defined.

(** C2 at a concrete input: 127.0.0.1:7777 dialed a second time. *)
Lemma connect_known_address_returns_existing_witness :
  length (split ":" "127.0.0.1:7777") = 2%nat
  /\ own (connections (self world_dialing)) "127.0.0.1:7777" = Some 0%nat
  /\ _connect connect_error "127.0.0.1:7777" world_dialing
       = Returned (Connection 0%nat) world_dialing.
Proof.
  split; [reflexivity|]. split; [reflexivity|].
  apply (proj1 (connect_known_address_returns_existing connect_error
                  "127.0.0.1:7777" eq_refl)).
  reflexivity.
Defined.

(** C2 as stated fails: the key ::1:5000, stored when a transport from the
    IPv6 address ::1 is accepted, is in the table, yet [_connect] on it
    returns the result of [debug], not the entry. *)
Lemma connect_known_address_counterexample :
  own (connections (self world_accepted_ipv6)) "::1:5000" = Some 0%nat
  /\ split ":" "::1:5000" = [EmptyString; EmptyString; "1"; "5000"]
  /\ result_of (_connect connect_error "::1:5000" world_accepted_ipv6)
       = Some ResultOfDebug
  /\ result_of (_connect connect_error "::1:5000" world_accepted_ipv6)
       <> Some (Connection 0%nat).
Proof. repeat split; try reflexivity. discriminate. Qed.

(** C3 at a concrete input: a PING with id 7. *)
Lemma ping_yields_one_pong_witness :
  msg_type ping7 = P2P_PING
  /\ exists w',
       _handleMessage JSON.parse sign_hex (Some ping7) world0
         = Returned (RMessage (Message_fromVector P2P_PONG (VString "7"))) w'.
Proof.
  split; [reflexivity|].
  destruct (ping_yields_one_pong fromRaw asRaw JSON.parse sign_hex ping7 world0
              eq_refl) as (w' & Hrun & _).
  exists w'. exact Hrun.
Defined.

(** C4 at a concrete input: an IDENT_REQUEST carrying another peer's id. *)
Lemma ident_request_yields_own_id_witness :
  msg_type (ident_request_from "remote-peer-id") = P2P_IDENT_REQUEST
  /\ _handleMessage JSON.parse sign_hex
       (Some (ident_request_from "remote-peer-id")) world0
     = Returned
         (RMessage (Message_fromVector P2P_IDENT_RESPONSE (VString "local-peer-id")))
         world0.
Proof.
  split; [reflexivity|].
  exact (proj1 (ident_request_yields_own_id fromRaw asRaw JSON.parse sign_hex
                  (ident_request_from "remote-peer-id") world0 eq_refl)).
Defined.

(** C5 at a concrete input: the payload [{"path":"/a","value":1}]. *)
Lemma state_change_truthy_emits_changes_witness :
  let v := VObject [("path", VString "/a"); ("value", VNumber one)] in
  msg_type (state_change path_value_text) = P2P_STATE_CHANGE
  /\ JSON.parse (msg_data (state_change path_value_text)) = Some v
  /\ truthy v = true
  /\ exists w',
       _handleMessage JSON.parse sign_hex (Some (state_change path_value_text)) world0
         = Returned RNull w'
       /\ emitted (trace w') = [Emit (ev_changes v)]
       /\ writes (trace w') = [].
Proof.
  intros v. split; [reflexivity|]. split; [exact path_value_parses|].
  split; [reflexivity|].
  destruct (state_change_truthy_emits_changes fromRaw asRaw JSON.parse sign_hex
              (state_change path_value_text) v world0 eq_refl path_value_parses
              eq_refl) as (w' & Hrun & _ & _ & Hemit & Hwrites & _).
  exists w'. split; [exact Hrun|]. split; [exact Hemit|exact Hwrites].
Defined.

(** C5 as stated fails: the payload [null] parses successfully, to the
    value [null], and no [changes] event is emitted. *)
Lemma state_change_falsy_counterexample :
  msg_type (state_change "null") = P2P_STATE_CHANGE
  /\ JSON.parse (msg_data (state_change "null")) = Some VNull
  /\ result_of (_handleMessage JSON.parse sign_hex (Some (state_change "null")) world0)
       = Some RNull
  /\ emitted
       (trace (world_of
          (_handleMessage JSON.parse sign_hex (Some (state_change "null")) world0)))
     = [].
Proof. repeat split; vm_compute; reflexivity. Qed.

(** C6 at a concrete input: the payload [not json]. *)
Lemma state_change_invalid_json_dropped_witness :
  msg_type (state_change "not json") = P2P_STATE_CHANGE
  /\ JSON.parse (msg_data (state_change "not json")) = None
  /\ exists w',
       _handleMessage JSON.parse sign_hex (Some (state_change "not json")) world0
         = Returned RFalse w'
       /\ emitted (trace w') = [] /\ writes (trace w') = []
       /\ destroys (trace w') = [].
Proof.
  split; [reflexivity|]. split; [reflexivity|].
  destruct (state_change_invalid_json_dropped fromRaw asRaw JSON.parse sign_hex
              (state_change "not json") world0 eq_refl eq_refl)
    as (w' & Hrun & _ & _ & _ & Hemit & Hwrites & Hdestroys & _).
  exists w'. split; [exact Hrun|]. split; [exact Hemit|].
  split; [exact Hwrites|exact Hdestroys].
Defined.

(** C7 at a concrete input: a payload object broadcast to the table of
    [world_three]; the established and the accepted connection are
    written one frame each, the connecting one none. *)
Lemma broadcast_writes_one_frame_per_live_connection_witness :
  let p := VObject [("path", VString "/a")] in
  let frame := broadcast_frame asRaw JSON.stringify p in
  connections_ok world_three
  /\ exists w',
       broadcast asRaw JSON.stringify p world_three = Returned tt w'
       /\ writes_to 0%nat (trace w')
            = writes_to 0%nat (trace world_three) ++ [SocketWrite 0%nat frame]
       /\ writes_to 1%nat (trace w')
            = writes_to 1%nat (trace world_three) ++ [SocketWrite 1%nat frame]
       /\ writes_to 2%nat (trace w') = writes_to 2%nat (trace world_three).
Proof.
  intros p frame. split; [exact world_three_ok|].
  destruct (broadcast_writes_one_frame_per_live_connection asRaw JSON.stringify
              p world_three world_three_ok)
    as (w' & Hrun & _ & _ & _ & Hlive & Hother).
  exists w'. split; [exact Hrun|]. split; [|split].
  - exact (Hlive "127.0.0.1:7777" 0%nat eq_refl eq_refl).
  - exact (Hlive "10.0.0.2:5000" 1%nat eq_refl eq_refl).
  - exact (Hother 2%nat (or_intror eq_refl)).
Defined.

(** C7 as stated fails: the connection dialed to 127.0.0.1:7777 is in the
    table at call time, and [broadcast] writes no frame to it, because its
    socket is still connecting. *)
Lemma broadcast_skips_connecting_counterexample :
  own (connections (self world_dialing)) "127.0.0.1:7777" = Some 0%nat
  /\ (connecting <$> sockets world_dialing !! 0%nat) = Some true
  /\ threw (broadcast asRaw JSON.stringify (VString "x") world_dialing) = false
  /\ writes (trace (world_of
       (broadcast asRaw JSON.stringify (VString "x") world_dialing))) = [].
Proof. repeat split; vm_compute; reflexivity. Qed.

(** C8 at a concrete input: an address without a colon. *)
Lemma connect_invalid_address_no_effect_witness :
  length (split ":" "localhost") <> 2%nat
  /\ exists w',
       _connect connect_error "localhost" world0 = Returned ResultOfDebug w'
       /\ self w' = self world0 /\ sockets w' = sockets world0.
Proof.
  assert (Hparts : length (split ":" "localhost") <> 2%nat) by (cbn; lia).
  split; [exact Hparts|].
  destruct (connect_invalid_address_no_effect connect_error "localhost" world0 Hparts)
    as (w' & Hrun & Hself & Hsock & _).
  exists w'. split; [exact Hrun|]. split; [exact Hself|exact Hsock].
Defined.

(** C8 as stated fails: the address [:7777] does not split into two
    non-empty parts (its host part is empty), yet [_connect] creates a
    socket and enters it in the connection table. *)
Lemma connect_empty_part_counterexample :
  split ":" ":7777" = [EmptyString; "7777"]
  /\ result_of (_connect connect_error ":7777" world0) = Some (Connection 0%nat)
  /\ connections (self (world_of (_connect connect_error ":7777" world0)))
       = [(":7777", 0%nat)]
  /\ length (sockets (world_of (_connect connect_error ":7777" world0))) = 1%nat
  /\ connections (self world0) = [] /\ sockets world0 = [].
Proof. repeat split; vm_compute; reflexivity. Qed.

End Examples.
